(** * cm-worker: the job worker of [src/cm_worker/worker.py]

    A shallow embedding of the [Worker] class: the Redis store it talks to,
    its lock check, its cleanup, the body of the main loop of [start] and the
    two background loops, followed by the properties of the specification
    that concern them.

    Conventions.
    - A Python [str] and the [bytes] that encode it in UTF-8 are the same
      [string] here, so [.decode('utf-8')] is the identity; byte strings of
      the store that are not UTF-8 text are outside the model.
    - The store always answers: connection failures of the Redis client are
      outside the model.
    - The functions of Python's library whose results the worker only passes
      on ([json.loads], [json.dumps], [traceback.format_exc], [repr]) are the
      fields of the class [PyLib]. *)

From Stdlib Require Import String Ascii List ZArith Bool Lia.
From stdpp Require Import base option list strings gmap fin_maps pretty.

Local Open Scope string_scope.
Local Open Scope list_scope.

(** ** Values *)

(** What [json.loads] builds and [json.dumps] prints.  A float stands for the
    text [float.__repr__] gives it: the worker never computes with one. *)
#[warnings="-register-all"]
Inductive Json : Type :=
| JNull
| JBool (b : bool)
| JInt (n : Z)
| JFloat (repr : string)
| JString (s : string)
| JArray (items : list Json)
| JObject (fields : list (string * Json)).

(** [self.job_id] inside a dict literal handed to [json.dumps]. *)
Definition json_of_job_id (j : option string) : Json :=
  match j with
  | None => JNull
  | Some s => JString s
  end.

(** [{self.job_id}] inside an f-string. *)
Definition fmt_job_id (j : option string) : string :=
  match j with
  | None => "None"
  | Some s => s
  end.

(** [s.split(sep)] for a one-character separator. *)
Fixpoint split (sep : ascii) (s : string) : list string :=
  match s with
  | EmptyString => [EmptyString]
  | String c s' =>
      if decide (c = sep) then EmptyString :: split sep s'
      else match split sep s' with
           | [] => [String c EmptyString]
           | w :: ws => String c w :: ws
           end
  end.

(** Whether [c] occurs in [s]. *)
Fixpoint contains (c : ascii) (s : string) : bool :=
  match s with
  | EmptyString => false
  | String c' s' => if decide (c' = c) then true else contains c s'
  end.

(** ** Exceptions *)

Inductive exn : Type :=
| LockError                      (* class LockError(Exception): pass *)
| KeyboardInterrupt
| SystemExit                     (* raised by sys.exit() *)
| AssertionError                 (* a failed assert (none has a message) *)
| KeyError (key : string)        (* self.pipelines[pipeline] *)
| IndexError                     (* ...split(':')[1] *)
| TypeError (msg : string)
| DataError (msg : string)       (* redis.exceptions.DataError *)
| ResponseError (msg : string)   (* redis.exceptions.ResponseError *)
| Exception_ (msg : string)      (* any other subclass of Exception *)
| BaseException_ (msg : string). (* any other exception that is not one *)

(** [isinstance(e, Exception)] *)
Definition is_Exception (e : exn) : bool :=
  match e with
  | KeyboardInterrupt | SystemExit | BaseException_ _ => false
  | _ => true
  end.

Inductive res (A : Type) : Type :=
| Ok (a : A)
| Raise (e : exn).
Arguments Ok {A} a.
Arguments Raise {A} e.

Class PyLib : Type := {
  (** [json.loads]: the value parsed, or the exception raised *)
  json_loads : string -> res Json;
  (** [json.dumps] *)
  json_dumps : Json -> string;
  (** [traceback.format_exc()] while the exception is being handled *)
  format_exc : exn -> string;
  (** [repr] of a [str] *)
  repr_str : string -> string
}.

(** ** The Redis store *)

Record Redis : Type := {
  lists : gmap string (list string);
  hashes : gmap string (gmap string string)
}.

Module Store.

Definition empty : Redis := {| lists := ∅; hashes := ∅ |}.

(** LRANGE key 0 -1: a key that holds nothing is the empty list. *)
Definition lrange (key : string) (r : Redis) : list string :=
  default [] (lists r !! key).

Definition set_list (key : string) (l : list string) (r : Redis) : Redis :=
  {| lists := <[key := l]> (lists r); hashes := hashes r |}.

Definition lpush (key value : string) (r : Redis) : Redis :=
  set_list key (value :: lrange key r) r.

Definition rpush (key value : string) (r : Redis) : Redis :=
  set_list key (lrange key r ++ [value]) r.

(** The list without its first [n] elements equal to [value]. *)
Fixpoint remove_first (n : nat) (value : string) (l : list string) : list string :=
  match n, l with
  | O, _ => l
  | _, [] => []
  | S n', x :: l' =>
      if decide (x = value) then remove_first n' value l'
      else x :: remove_first n value l'
  end.

(** LREM key count value: [count = 0] removes every element equal to
    [value], [count > 0] the first [count] from the head, [count < 0] the
    first [-count] from the tail. *)
Definition lrem_list (count : Z) (value : string) (l : list string) : list string :=
  if decide (count = 0)%Z then filter (λ x, x ≠ value) l
  else if decide (0 < count)%Z then remove_first (Z.to_nat count) value l
  else rev (remove_first (Z.to_nat (- count)) value (rev l)).

Definition lrem (key : string) (count : Z) (value : string) (r : Redis) : Redis :=
  {| lists := alter (lrem_list count value) key (lists r); hashes := hashes r |}.

Definition hget (name key : string) (r : Redis) : option string :=
  hashes r !! name ≫= λ h, h !! key.

Definition hset (name key value : string) (r : Redis) : Redis :=
  {| lists := lists r;
     hashes := <[name := <[key := value]> (default ∅ (hashes r !! name))]> (hashes r) |}.

Definition hdel (name key : string) (r : Redis) : Redis :=
  {| lists := lists r; hashes := alter (delete key) name (hashes r) |}.

(** The last element of a list and what is before it. *)
Fixpoint pop_right (l : list string) : option (list string * string) :=
  match l with
  | [] => None
  | x :: l' =>
      match pop_right l' with
      | None => Some ([], x)
      | Some (init, y) => Some (x :: init, y)
      end
  end.

(** BRPOP key [key ...] 0: the keys are tried in the order given; the
    first that holds a non-empty list gives up its last element.  [None]:
    every list is empty and the call waits.  (With no key at all the
    server refuses the command: see [loop_body].) *)
Fixpoint brpop (keys : list string) (r : Redis) : option (string * string * Redis) :=
  match keys with
  | [] => None
  | k :: ks =>
      match pop_right (lrange k r) with
      | Some (init, v) => Some (k, v, set_list k init r)
      | None => brpop ks r
      end
  end.

End Store.

(** The commands are kept folded when a goal is simplified: unfolding one
    runs the map operations on the name of its key. *)
Arguments Store.lrange : simpl never.
Arguments Store.set_list : simpl never.
Arguments Store.lpush : simpl never.
Arguments Store.rpush : simpl never.
Arguments Store.lrem : simpl never.
Arguments Store.hget : simpl never.
Arguments Store.hset : simpl never.
Arguments Store.hdel : simpl never.
Arguments Store.brpop : simpl never.

(** ** The worker *)

(** What happened, in order: the commands sent to the store, the messages
    put on [self.log_queue], the pipeline calls and the assignments to
    [self.job_id].  Nothing reads it; the properties about the order of the
    steps are stated on it. *)
Inductive event : Type :=
| Brpop (keys : list string) (timeout : Z) (from value : string)
| Lpush (key value : string)
| Rpush (key value : string)
| Lrem (key : string) (count : Z) (value : string)
| Hget (name key : string)
| Hset (name key value : string)
| Hdel (name key : string)
| Put (msg : string)
| Call (pipeline : string) (job : Json)
| SetJobId (v : option string).

(** What a pipeline function returns: a value that [json.dumps] prints, or
    one that it refuses (a set, bytes, an object of a class of the caller's)
    by raising TypeError with the message [msg].  (The ValueError of a
    circular reference is caught and reported the same way.) *)
Inductive PyObj : Type :=
| Dumpable (v : Json)
| Refused (msg : string).

(** A pipeline function.  It is given the parsed job; it returns a result or
    raises.  It runs for as long as it likes, so it also takes the store as
    it is when the call starts and gives it back as it is when the call
    ends: what the function itself and every other client of the store did
    to it in between. *)
Definition handler : Type := Json -> Redis -> res PyObj * Redis.

Record Worker : Type := {
  redis : Redis;
  worker_id : string;
  log_queue : list string;          (* Queue(): put at the end, get at the head *)
  is_exiting : bool;                (* self.is_exiting[0] *)
  job_id : option string;
  pipelines : list (string * handler); (* a dict, in insertion order *)
  trace : list event
}.

Definition with_redis (f : Redis -> Redis) (w : Worker) : Worker :=
  {| redis := f (redis w); worker_id := worker_id w; log_queue := log_queue w;
     is_exiting := is_exiting w; job_id := job_id w; pipelines := pipelines w;
     trace := trace w |}.

Definition with_log_queue (q : list string) (w : Worker) : Worker :=
  {| redis := redis w; worker_id := worker_id w; log_queue := q;
     is_exiting := is_exiting w; job_id := job_id w; pipelines := pipelines w;
     trace := trace w |}.

Definition with_job_id (j : option string) (w : Worker) : Worker :=
  {| redis := redis w; worker_id := worker_id w; log_queue := log_queue w;
     is_exiting := is_exiting w; job_id := j; pipelines := pipelines w;
     trace := trace w |}.

Definition with_pipelines (p : list (string * handler)) (w : Worker) : Worker :=
  {| redis := redis w; worker_id := worker_id w; log_queue := log_queue w;
     is_exiting := is_exiting w; job_id := job_id w; pipelines := p;
     trace := trace w |}.

Definition with_is_exiting (b : bool) (w : Worker) : Worker :=
  {| redis := redis w; worker_id := worker_id w; log_queue := log_queue w;
     is_exiting := b; job_id := job_id w; pipelines := pipelines w;
     trace := trace w |}.

(** The worker with one more event at the end of its trace. *)
Definition traced (e : event) (w : Worker) : Worker :=
  {| redis := redis w; worker_id := worker_id w; log_queue := log_queue w;
     is_exiting := is_exiting w; job_id := job_id w; pipelines := pipelines w;
     trace := trace w ++ [e] |}.

(** [Worker.__init__], with the store the client connects to and the number
    [random.randint] drew, already printed by [str]. *)
Definition init (store : Redis) (id : string) : Worker :=
  {| redis := store; worker_id := id; log_queue := []; is_exiting := false;
     job_id := None; pipelines := []; trace := [] |}.

(** [d[key] = value] on a dict kept in insertion order. *)
Fixpoint dict_set {V : Type} (key : string) (value : V) (d : list (string * V))
  : list (string * V) :=
  match d with
  | [] => [(key, value)]
  | (k, v) :: d' =>
      if decide (k = key) then (k, value) :: d' else (k, v) :: dict_set key value d'
  end.

(** [d[key]], [None] standing for KeyError. *)
Fixpoint dict_get {V : Type} (key : string) (d : list (string * V)) : option V :=
  match d with
  | [] => None
  | (k, v) :: d' => if decide (k = key) then Some v else dict_get key d'
  end.

Definition add_pipeline (pipeline : string) (function : handler) (w : Worker) : Worker :=
  with_pipelines (dict_set pipeline function (pipelines w)) w.

Definition stop (w : Worker) : Worker := with_is_exiting true w.

(** *** Statements: state and exceptions *)

Definition M (A : Type) : Type := Worker -> res A * Worker.

Definition ret {A : Type} (a : A) : M A := λ w, (Ok a, w).

Definition bind {A B : Type} (m : M A) (k : A -> M B) : M B :=
  λ w, match m w with
       | (Ok a, w') => k a w'
       | (Raise e, w') => (Raise e, w')
       end.

Definition raise {A : Type} (e : exn) : M A := λ w, (Raise e, w).

Definition gets {A : Type} (f : Worker -> A) : M A := λ w, (Ok (f w), w).

(** [try: body  except ... as e: handle e] *)
Definition try_except {A : Type} (body : M A) (handle : exn -> M A) : M A :=
  λ w, match body w with
       | (Ok a, w') => (Ok a, w')
       | (Raise e, w') => handle e w'
       end.

Declare Scope worker_scope.
Delimit Scope worker_scope with worker.
Notation "x <- m ;; k" := (bind m (λ x, k))
  (at level 100, m at next level, right associativity) : worker_scope.
Notation "m ;; k" := (bind m (λ _, k))
  (at level 100, right associativity) : worker_scope.
Local Open Scope worker_scope.

(** The calls on [self.redis]. *)
Definition redis_lpush (key value : string) : M unit :=
  λ w, (Ok tt, traced (Lpush key value) (with_redis (Store.lpush key value) w)).

Definition redis_rpush (key value : string) : M unit :=
  λ w, (Ok tt, traced (Rpush key value) (with_redis (Store.rpush key value) w)).

Definition redis_lrem (key : string) (count : Z) (value : string) : M unit :=
  λ w, (Ok tt, traced (Lrem key count value) (with_redis (Store.lrem key count value) w)).

Definition redis_hget (name key : string) : M (option string) :=
  λ w, (Ok (Store.hget name key (redis w)), traced (Hget name key) w).

Definition redis_hset (name key value : string) : M unit :=
  λ w, (Ok tt, traced (Hset name key value) (with_redis (Store.hset name key value) w)).

Definition redis_hdel (name key : string) : M unit :=
  λ w, (Ok tt, traced (Hdel name key) (with_redis (Store.hdel name key) w)).

(** [self.log_queue.put(msg)] *)
Definition log_queue_put (msg : string) : M unit :=
  λ w, (Ok tt, traced (Put msg) (with_log_queue (log_queue w ++ [msg]) w)).

(** [self.job_id = v] *)
Definition set_job_id (v : option string) : M unit :=
  λ w, (Ok tt, traced (SetJobId v) (with_job_id v w)).

Section Worker.

Context `{PyLib}.

(** [str(e)] *)
Definition str_exn (e : exn) : string :=
  match e with
  | LockError | KeyboardInterrupt | SystemExit | AssertionError => ""
  | KeyError key => repr_str key
  | IndexError => "list index out of range"
  | TypeError msg | DataError msg | ResponseError msg
  | Exception_ msg | BaseException_ msg => msg
  end.

(** *** [check_lock] *)
Definition check_lock : M unit :=
  j <- gets job_id;;
  match j with
  | None => ret tt
  | Some j =>
      lock <- redis_hget "locks" j;;
      match lock with
      | None => raise AssertionError       (* assert(type(lock) == bytes) *)
      | Some lock =>
          me <- gets worker_id;;
          if decide (lock ≠ me) then raise LockError else ret tt
      end
  end.

(** *** [send_result] *)
Definition send_result (data : string) : M unit :=
  redis_rpush "queue:done" data.

(** *** [clean_up] *)
Definition clean_up : M unit :=
  j <- gets job_id;;
  match j with
  | None => ret tt
  | Some j =>
      redis_lrem "queue:concept-map:processing" 0 j;;
      redis_hdel "last_updates" j;;
      redis_hdel "locks" j;;
      redis_hdel "jobs" j;;
      redis_hdel "files" j;;
      set_job_id None
  end.

(** The store once [clean_up] has removed the records of job [j], and the
    events of that cleanup. *)
Definition cleaned (j : string) (r : Redis) : Redis :=
  Store.hdel "files" j
    (Store.hdel "jobs" j
       (Store.hdel "locks" j
          (Store.hdel "last_updates" j
             (Store.lrem "queue:concept-map:processing" 0 j r)))).

Definition clean_up_events (j : string) : list event :=
  [Lrem "queue:concept-map:processing" 0 j; Hdel "last_updates" j;
   Hdel "locks" j; Hdel "jobs" j; Hdel "files" j; SetJobId None].

(** *** [get_file] *)

(** The [io.BytesIO] it returns is modelled by the bytes the stream holds. *)
Definition get_file (file_id : string) : M string :=
  file <- redis_hget "files" file_id;;
  match file with
  | None => raise AssertionError         (* assert(type(file) == bytes) *)
  | Some file => ret file
  end.

(** *** [start]: the body of [while True] *)

(** [self.pipelines[pipeline](job)] *)
Definition call_pipeline (pipeline : string) (job : Json) : M PyObj :=
  λ w, match dict_get pipeline (pipelines w) with
       | None => (Raise (KeyError pipeline), w)
       | Some function =>
           let '(out, store) := function job (redis w) in
           (out, traced (Call pipeline job) (with_redis (λ _, store) w))
       end.

(** [json.dumps({"job_id": self.job_id, "result": result})] *)
Definition dumps_result (j : option string) (result : PyObj) : M string :=
  match result with
  | Dumpable v =>
      ret (json_dumps (JObject [("job_id", json_of_job_id j); ("result", v)]))
  | Refused msg => raise (TypeError msg)
  end.

(** The block under [try:]. *)
Definition try_block (pipeline : string) (job : Json) : M unit :=
  result <- call_pipeline pipeline job;;
  check_lock;;
  j <- gets job_id;;
  data <- dumps_result j result;;
  send_result data;;
  clean_up;;
  j <- gets job_id;;
  log_queue_put ("CourseMapper Worker: Finished processing concept-map job " +:+ fmt_job_id j).

(** The three [except] clauses, tried in the order of the source. *)
Definition except_clauses (pipeline : string) (e : exn) : M unit :=
  match e with
  | LockError =>
      j <- gets job_id;;
      log_queue_put ("CourseMapper Worker: Lost lock for job " +:+ fmt_job_id j)
  | KeyboardInterrupt => raise SystemExit   (* sys.exit() *)
  | _ =>
      if is_Exception e then
        j <- gets job_id;;
        let data := json_dumps (JObject [("job_id", json_of_job_id j);
                                         ("error", JString (str_exn e))]) in
        send_result data;;
        j <- gets job_id;;
        log_queue_put ("CourseMapper Worker: Error processing " +:+ pipeline
                       +:+ " job " +:+ fmt_job_id j);;
        log_queue_put (format_exc e);;
        clean_up
      else raise e
  end.

Definition run_job (pipeline : string) (job : Json) : M unit :=
  try_except (try_block pipeline job) (except_clauses pipeline).

(** From the return of [brpop] to the first log message: the pipeline is
    read off the name of the queue, the job is recorded as the current one
    and pushed on the processing queue of that pipeline. *)
Definition receive (from_queue job_id_queue : string) : M string :=
  pipeline <- match split ":" from_queue !! 1%nat with
              | Some p => ret p
              | None => raise IndexError
              end;;
  set_job_id (Some job_id_queue);;
  redis_lpush ("queue:" +:+ pipeline +:+ ":processing") job_id_queue;;
  log_queue_put ("CourseMapper Worker: Received concept-map job for "
                 +:+ job_id_queue +:+ "...");;
  ret pipeline.

(** The job arguments are read and parsed, then the lock is written. *)
Definition fetch_and_lock (j : string) : M Json :=
  job <- redis_hget "jobs" j;;
  match job with
  | None => raise AssertionError          (* assert(type(job) == bytes) *)
  | Some job =>
      match json_loads job with
      | Raise e => raise e
      | Ok job =>
          me <- gets worker_id;;
          redis_hset "locks" j me;;
          log_queue_put ("CourseMapper Worker: Processing concept-map job "
                         +:+ j +:+ "...");;
          ret job
      end
  end.

Definition iteration (from_queue job_id_queue : string) : M unit :=
  pipeline <- receive from_queue job_id_queue;;
  job <- fetch_and_lock job_id_queue;;
  run_job pipeline job.

(** One turn of [while True]. *)
Inductive step : Type :=
| Waiting                        (* brpop found every pending queue empty *)
| Next (w : Worker)              (* back at the top of the loop *)
| Leaves (e : exn) (w : Worker). (* the exception leaves start() *)

Definition finish (end_of_turn : res unit * Worker) : step :=
  match end_of_turn with
  | (Ok _, w) => Next w
  | (Raise e, w) => Leaves e w
  end.

Definition no_queue : exn :=
  ResponseError "wrong number of arguments for 'brpop' command".

Definition loop_body (queues : list string) (w : Worker) : step :=
  match queues with
  | [] => Leaves no_queue w          (* no pipeline: BRPOP is sent no key *)
  | _ =>
      match Store.brpop queues (redis w) with
      | None => Waiting
      | Some (from_queue, job_id_queue, store) =>
          finish (iteration from_queue job_id_queue
                    (traced (Brpop queues 0 from_queue job_id_queue)
                            (with_redis (λ _, store) w)))
      end
  end.

(** The part of a turn that comes before [try:].  [Some (pipeline, j, job,
    w')]: job [j] was claimed from a queue of [pipeline], its arguments
    parsed to [job] and its lock written, and the turn stands at [try:] in
    state [w'].  [None]: no job was pending, or the turn ended before. *)
Definition dispatch (queues : list string) (w : Worker)
  : option (string * string * Json * Worker) :=
  match Store.brpop queues (redis w) with
  | None => None
  | Some (from_queue, job_id_queue, store) =>
      match (pipeline <- receive from_queue job_id_queue;;
             job <- fetch_and_lock job_id_queue;;
             ret (pipeline, job))
              (traced (Brpop queues 0 from_queue job_id_queue)
                      (with_redis (λ _, store) w)) with
      | (Ok (pipeline, job), w') => Some (pipeline, job_id_queue, job, w')
      | (Raise _, _) => None
      end
  end.

(** [queues = [f'queue:{pipeline}:pending' for pipeline in pipelines]] *)
Definition pending_queues (w : Worker) : list string :=
  map (λ p, "queue:" +:+ p.1 +:+ ":pending") (pipelines w).

(** At most [turns] turns of the loop. *)
Fixpoint main_loop (turns : nat) (queues : list string) (w : Worker) : step :=
  match turns with
  | O => Next w
  | S n =>
      match loop_body queues w with
      | Next w' => main_loop n queues w'
      | s => s
      end
  end.

(** *** The background threads *)

(** A function given as [target] to [Thread]: the number of positional
    parameters its [def] declares, and its body. *)
Record target : Type := { params : nat; body : M unit }.

(** The message of the TypeError (Python 3.10 and later put the qualified
    name of the function in front). *)
Definition missing_self : string :=
  "status_updater() missing 1 required positional argument: 'self'".

(** [Thread(target=f, daemon=True).start()]: the thread calls [f()], with
    no argument.  What is returned is how the thread ends. *)
Definition thread_run (f : target) : M unit :=
  if decide (params f = 0%nat) then body f else raise (TypeError missing_self).

(** [self.redis.hset(name, key, value)] where [key] may be [None]. *)
Definition redis_hset_key (name : string) (key : option string) (value : string) : M unit :=
  match key with
  | None => raise (DataError "'hset' with no key value pairs")
  | Some key => redis_hset name key value
  end.

(** [status_updater]: one turn of its loop for each reading of
    [int(time.time())] in [clock]. *)
Fixpoint status_updater (job_id : option string) (clock : list Z) : M unit :=
  match clock with
  | [] => ret tt
  | now :: clock' =>
      exiting <- gets is_exiting;;
      if exiting : bool then ret tt
      else
        check_lock;;
        redis_hset_key "last_updates" job_id (pretty now);;
        status_updater job_id clock'       (* after time.sleep(5) *)
  end.

(** [def status_updater(self):] handed to [Thread] without [args]. *)
Definition start_updater_thread (job_id : option string) (clock : list Z) : M unit :=
  thread_run {| params := 1; body := status_updater job_id clock |}.

(** The entry [log_generator] builds for [log_message]: the worker's id, the
    job that is current when the message is taken off the queue, the time
    and the message. *)
Definition log_entry (w : Worker) (stamp log_message : string) : string :=
  json_dumps (JObject [("worker_id", JString (worker_id w));
                       ("job_id", json_of_job_id (job_id w));
                       ("timestamp", JString stamp);
                       ("message", JString log_message)]).

(** One turn of the loop of [log_generator]; [stamp] is what
    [time.strftime] gives if it is called. *)
Definition log_turn (stamp : string) (w : Worker) : Worker :=
  match log_queue w with
  | [] => w                               (* Empty after 5 s: pass *)
  | log_message :: q =>
      let msg := log_entry w stamp log_message in
      traced (Rpush "log" msg)
             (with_redis (Store.rpush "log" msg) (with_log_queue q w))
  end.

(** [log_generator]: one turn for each element of [stamps]. *)
Fixpoint log_generator (stamps : list string) (w : Worker) : Worker :=
  match stamps with
  | [] => w
  | stamp :: stamps' =>
      if is_exiting w then w else log_generator stamps' (log_turn stamp w)
  end.

(** [def log_generator():] handed to [Thread]. *)
Definition start_log_thread (stamps : list string) : M unit :=
  thread_run {| params := 0; body := λ w, (Ok tt, log_generator stamps w) |}.

(** What [start] spawns before its loop:
    [self.start_updater_thread(self.job_id)]. *)
Definition spawn_updater (clock : list Z) : M unit :=
  j <- gets job_id;;
  start_updater_thread j clock.

(** *** Names for what the turns leave behind *)

(** The dicts that [start] hands to [json.dumps] for job [j]. *)
Definition result_record (j : string) (result : Json) : Json :=
  JObject [("job_id", JString j); ("result", result)].

Definition error_record (j : string) (e : exn) : Json :=
  JObject [("job_id", JString j); ("error", JString (str_exn e))].

(** The log messages of the three [except]-or-not endings. *)
Definition finished_message : string :=
  "CourseMapper Worker: Finished processing concept-map job None".

Definition lost_lock_message (j : string) : string :=
  "CourseMapper Worker: Lost lock for job " +:+ j.

Definition error_message (pipeline j : string) : string :=
  "CourseMapper Worker: Error processing " +:+ pipeline +:+ " job " +:+ j.

(** [start], [turns] turns of its loop (the background threads are apart:
    they only meet the loop in the store and in the worker's fields). *)
Definition start (turns : nat) (w : Worker) : step :=
  main_loop turns (pending_queues w) w.

End Worker.

(** ** A library for the scenarios

    The scenarios of the specification are run with this instance of
    [PyLib].  Its printer follows [json.dumps] with the default separators
    on text that needs no escape other than for the quote and the backslash;
    its parser knows the one job text the scenarios use. *)
Module Scenario.

Definition dq : string := String "034" EmptyString.
Definition bs : string := String "092" EmptyString.

Fixpoint escape (s : string) : string :=
  match s with
  | EmptyString => EmptyString
  | String c s' =>
      if decide (c = "034"%char) then bs +:+ dq +:+ escape s'
      else if decide (c = "092"%char) then bs +:+ bs +:+ escape s'
      else String c (escape s')
  end.

Definition quoted (s : string) : string := dq +:+ escape s +:+ dq.

Fixpoint join (sep : string) (l : list string) : string :=
  match l with
  | [] => ""
  | [x] => x
  | x :: l' => x +:+ sep +:+ join sep l'
  end.

Fixpoint dumps (v : Json) : string :=
  match v with
  | JNull => "null"
  | JBool true => "true"
  | JBool false => "false"
  | JInt n => pretty n
  | JFloat repr => repr
  | JString s => quoted s
  | JArray items => "[" +:+ join ", " (map dumps items) +:+ "]"
  | JObject fields =>
      "{" +:+ join ", " (map (λ kv, quoted kv.1 +:+ ": " +:+ dumps kv.2) fields) +:+ "}"
  end.

(** The job arguments [{"x":1}] and their text in the jobs table. *)
Definition job_x1 : Json := JObject [("x", JInt 1)].
Definition text_x1 : string := "{" +:+ dq +:+ "x" +:+ dq +:+ ":1}".

(** [json.loads] on the texts the scenarios use: the arguments [{"x":1}],
    and texts that start no JSON value, which it refuses at their first
    character. *)
Definition loads (s : string) : res Json :=
  if decide (s = text_x1) then Ok job_x1
  else Raise (Exception_ "Expecting value: line 1 column 1 (char 0)").

Definition lib : PyLib :=
  {| json_loads := loads;
     json_dumps := dumps;
     format_exc := λ e, "Traceback (most recent call last):";
     repr_str := λ s, "'" +:+ s +:+ "'" |}.

(** A store where job [j] waits in the pending queue of [pipeline] with
    the arguments [{"x":1}]. *)
Definition pending_store (pipeline j : string) : Redis :=
  Store.hset "jobs" j text_x1
    (Store.lpush ("queue:" +:+ pipeline +:+ ":pending") j Store.empty).

(** The handler that returns [{"y":2}] and leaves the store alone. *)
Definition returns_y2 : handler :=
  λ _ store, (Ok (Dumpable (JObject [("y", JInt 2)])), store).

(** The handler that returns a set, which [json.dumps] refuses. *)
Definition no_set : string := "Object of type set is not JSON serializable".
Definition returns_set : handler := λ _ store, (Ok (Refused no_set), store).

(** The handler during whose run another worker takes the lock of [j]. *)
Definition loses_lock (j other : string) : handler :=
  λ _ store, (Ok (Dumpable (JObject [("y", JInt 2)])), Store.hset "locks" j other store).

(** The handler that raises [Exception("boom")]. *)
Definition raises_boom : handler := λ _ store, (Raise (Exception_ "boom"), store).

(** The handler during whose run the lock record of [j] is deleted. *)
Definition deletes_lock (j : string) : handler :=
  λ _ store, (Ok (Dumpable (JObject [("y", JInt 2)])), Store.hdel "locks" j store).

(** The handler that raises [e]. *)
Definition raises (e : exn) : handler := λ _ store, (Raise e, store).

(** Worker 7 with one pipeline, and job j1 pending for it. *)
Definition worker (pipeline : string) (function : handler) : Worker :=
  add_pipeline pipeline function (init (pending_store pipeline "j1") "7").

(** The worker as it stands at [try:] in its first turn. *)
Definition at_try (w : Worker) : Worker :=
  (default ("", "", JNull, w) (@dispatch lib (pending_queues w) w)).2.

(** The worker after its first turn, when the turn comes back to the top
    of the loop. *)
Definition after_turn (w : Worker) : Worker :=
  match @loop_body lib (pending_queues w) w with
  | Next w' => w'
  | _ => w
  end.

(** A JSON text written with apostrophes for its quotes. *)
Fixpoint text (s : string) : string :=
  match s with
  | EmptyString => EmptyString
  | String c s' => String (if decide (c = "'"%char) then "034"%char else c) (text s')
  end.

End Scenario.

(** ** Predicates for the properties *)

(** The pushes on the done stream among the events [evs]. *)
Fixpoint reports (evs : list event) : nat :=
  match evs with
  | [] => 0
  | Rpush key _ :: evs' =>
      if String.eqb key "queue:done" then S (reports evs') else reports evs'
  | _ :: evs' => reports evs'
  end.

(** [w'] has the identity, the registry and the exit flag of [w], and its
    log queue is that of [w] with messages added at the end. *)
Definition keeps (w w' : Worker) : Prop :=
  worker_id w' = worker_id w
  ∧ pipelines w' = pipelines w
  ∧ is_exiting w' = is_exiting w
  ∧ ∃ msgs, log_queue w' = log_queue w ++ msgs.

Definition Keeps {A : Type} (m : M A) : Prop :=
  ∀ w r w', m w = (r, w') → keeps w w'.

(** * Properties *)

(** Two workers with the same fields are the same. *)
Lemma worker_eq (w1 w2 : Worker) :
  redis w1 = redis w2 → worker_id w1 = worker_id w2 →
  log_queue w1 = log_queue w2 → is_exiting w1 = is_exiting w2 →
  job_id w1 = job_id w2 → pipelines w1 = pipelines w2 → trace w1 = trace w2 →
  w1 = w2.
Proof. destruct w1, w2; cbn; intros; by subst. Qed.

(** Unfolds the statements of the worker; the states they build stay
    folded until a field is read. *)
Ltac run :=
  unfold dumps_result;
  unfold bind, ret, raise, gets, try_except, send_result, redis_lpush, redis_rpush,
    redis_lrem, redis_hget, redis_hset, redis_hdel, log_queue_put, set_job_id;
  cbn.

(** Closes [(r, w1) = (r, w2)] field by field. *)
Ltac same_state :=
  f_equal; apply worker_eq; cbn; try done; by rewrite <- ?app_assoc.

(** ** The store *)

Section StoreFacts.

Implicit Types (r : Redis) (name key value : string) (l : list string).

Lemma hget_hset r name key value :
  Store.hget name key (Store.hset name key value r) = Some value.
Proof.
  unfold Store.hget, Store.hset; cbn.
  rewrite lookup_insert_eq; cbn. apply lookup_insert_eq.
Qed.

Lemma hget_hset_ne r name key value name' key' :
  (name, key) ≠ (name', key') →
  Store.hget name' key' (Store.hset name key value r) = Store.hget name' key' r.
Proof.
  intros Hne. unfold Store.hget, Store.hset; cbn.
  destruct (decide (name = name')) as [<-|Hn].
  - rewrite lookup_insert_eq; cbn.
    rewrite lookup_insert_ne by congruence.
    destruct (hashes r !! name); [done | apply lookup_empty].
  - by rewrite lookup_insert_ne.
Qed.

Lemma hget_hdel r name key : Store.hget name key (Store.hdel name key r) = None.
Proof.
  unfold Store.hget, Store.hdel; cbn.
  rewrite lookup_alter_eq.
  destruct (hashes r !! name); cbn; [apply lookup_delete_eq | done].
Qed.

Lemma hget_hdel_ne r name key name' key' :
  (name, key) ≠ (name', key') →
  Store.hget name' key' (Store.hdel name key r) = Store.hget name' key' r.
Proof.
  intros Hne. unfold Store.hget, Store.hdel; cbn.
  destruct (decide (name = name')) as [<-|Hn].
  - rewrite lookup_alter_eq.
    destruct (hashes r !! name); cbn; [|done].
    rewrite lookup_delete_ne; [done | congruence].
  - by rewrite lookup_alter_ne.
Qed.

Lemma lrange_set_list r key l : Store.lrange key (Store.set_list key l r) = l.
Proof. unfold Store.lrange, Store.set_list; cbn. by rewrite lookup_insert_eq. Qed.

Lemma lrange_set_list_ne r key l key' :
  key ≠ key' → Store.lrange key' (Store.set_list key l r) = Store.lrange key' r.
Proof.
  intros Hne. unfold Store.lrange, Store.set_list; cbn.
  by rewrite lookup_insert_ne.
Qed.

Lemma lrange_rpush r key value :
  Store.lrange key (Store.rpush key value r) = Store.lrange key r ++ [value].
Proof. apply lrange_set_list. Qed.

Lemma lrange_lpush r key value :
  Store.lrange key (Store.lpush key value r) = value :: Store.lrange key r.
Proof. apply lrange_set_list. Qed.

Lemma lrange_lrem r key count value :
  Store.lrange key (Store.lrem key count value r)
  = Store.lrem_list count value (Store.lrange key r).
Proof.
  unfold Store.lrange, Store.lrem; cbn. rewrite lookup_alter_eq.
  destruct (lists r !! key); cbn; [done|].
  unfold Store.lrem_list. repeat case_decide; try done.
  all: by match goal with |- context [Z.to_nat ?z] => destruct (Z.to_nat z) end.
Qed.

Lemma lrange_lrem_ne r key count value key' :
  key ≠ key' →
  Store.lrange key' (Store.lrem key count value r) = Store.lrange key' r.
Proof.
  intros Hne. unfold Store.lrange, Store.lrem; cbn. by rewrite lookup_alter_ne.
Qed.

(** LREM with count 0 leaves no occurrence. *)
Lemma lrem_all_gone r key value :
  value ∉ Store.lrange key (Store.lrem key 0 value r).
Proof.
  rewrite lrange_lrem. unfold Store.lrem_list.
  rewrite decide_True by done.
  rewrite list_elem_of_filter. tauto.
Qed.

End StoreFacts.

(** ** Queue names *)

Lemma split_no_sep (sep : ascii) (p rest : string) :
  contains sep p = false →
  split sep (p +:+ String sep rest) = p :: split sep rest.
Proof.
  induction p as [|c p IH].
  - intros _. change (split sep (String sep rest) = "" :: split sep rest).
    cbn [split]. by rewrite decide_True.
  - change (String c p +:+ String sep rest) with (String c (p +:+ String sep rest)).
    cbn [contains split]. case_decide; [done|]. intros Hp. by rewrite (IH Hp).
Qed.

(** The pipeline that [start] reads off the name of a pending queue is the
    pipeline the queue was named after, when that name has no colon... *)
Lemma pipeline_of_pending_queue (p : string) :
  contains ":" p = false →
  split ":" ("queue:" +:+ p +:+ ":pending") !! 1%nat = Some p.
Proof.
  intros Hp.
  change ("queue:" +:+ p +:+ ":pending")
    with ("queue" +:+ String ":" (p +:+ String ":" "pending")).
  rewrite split_no_sep by done. by rewrite split_no_sep.
Qed.

(** ... and what comes before its first colon when it has one. *)
Example pipeline_of_pending_queue_colon :
  split ":" ("queue:" +:+ "a:b" +:+ ":pending") !! 1%nat = Some "a".
Proof. reflexivity. Qed.

Lemma string_append_length (s t : string) :
  String.length (s +:+ t) = (String.length s + String.length t)%nat.
Proof.
  induction s as [|c s IH]; [done|].
  change (S (String.length (s +:+ t)) = S (String.length s + String.length t)).
  by rewrite IH.
Qed.

Lemma append_suffix_inj (p q s : string) : p +:+ s = q +:+ s → p = q.
Proof.
  revert q. induction p as [|c p IH]; intros [|d q] Heq.
  - done.
  - apply (f_equal String.length) in Heq.
    rewrite !string_append_length in Heq. cbn [String.length] in Heq. lia.
  - apply (f_equal String.length) in Heq.
    rewrite !string_append_length in Heq. cbn [String.length] in Heq. lia.
  - cbn in Heq. injection Heq as -> Heq. f_equal. by apply IH.
Qed.

Lemma processing_queue_inj (p q : string) :
  "queue:" +:+ p +:+ ":processing" = "queue:" +:+ q +:+ ":processing" → p = q.
Proof.
  intros Heq.
  change ("queue:" +:+ (p +:+ ":processing") = "queue:" +:+ (q +:+ ":processing")) in Heq.
  apply (inj (String.append "queue:")) in Heq.
  by apply append_suffix_inj in Heq.
Qed.

Lemma done_is_no_processing_queue (p : string) :
  "queue:done" ≠ "queue:" +:+ p +:+ ":processing".
Proof.
  intros Heq. apply (f_equal String.length) in Heq.
  rewrite !string_append_length in Heq. cbn [String.length] in Heq. lia.
Qed.

(** ** The lock check *)

Lemma check_lock_idle (w : Worker) : job_id w = None → check_lock w = (Ok tt, w).
Proof. intros Hj. unfold check_lock, bind, gets. by rewrite Hj. Qed.

Lemma check_lock_held (w : Worker) (j : string) :
  job_id w = Some j →
  check_lock w
  = (match Store.hget "locks" j (redis w) with
     | None => Raise AssertionError
     | Some owner => if decide (owner ≠ worker_id w) then Raise LockError else Ok tt
     end, traced (Hget "locks" j) w).
Proof.
  intros Hj. unfold check_lock, bind, gets, redis_hget. rewrite Hj.
  destruct (Store.hget "locks" j (redis w)) as [owner|]; [|done].
  cbn. by case_decide.
Qed.

(** C3 does not hold of the code.  With no job held the lock check
    succeeds and does nothing.  With job [j] held it reads the lock record
    of [j]; if the record holds an owner, the check fails with LockError
    exactly when that owner is not this worker's identity and succeeds
    exactly when it is.  But if the record is absent, so that the stored
    owner is not this worker, the check does not fail with LockError: it
    fails on its assertion, with AssertionError. *)
Theorem check_lock_spec (w : Worker) :
  (job_id w = None → check_lock w = (Ok tt, w)) ∧
  (∀ j, job_id w = Some j →
     (∀ owner, Store.hget "locks" j (redis w) = Some owner →
        ((check_lock w).1 = Raise LockError ↔ owner ≠ worker_id w) ∧
        ((check_lock w).1 = Ok tt ↔ owner = worker_id w)) ∧
     (Store.hget "locks" j (redis w) = None →
        (check_lock w).1 = Raise AssertionError) ∧
     (check_lock w).2 = traced (Hget "locks" j) w).
Proof.
  split; [apply check_lock_idle|].
  intros j Hj. rewrite (check_lock_held w j Hj).
  split; [|split; [|done]].
  - intros owner ->. cbn.
    destruct (decide (owner ≠ worker_id w)) as [Hne|Heq].
    + naive_solver.
    + apply dec_stable in Heq. naive_solver.
  - by intros ->.
Qed.

(** Worker 7 holds job j1 and the locks table has no record for j1. *)
Lemma check_lock_spec_witness :
  let w := with_job_id (Some "j1") (init Store.empty "7") in
  Store.hget "locks" "j1" (redis w) = None
  ∧ (check_lock w).1 = Raise AssertionError
  ∧ (check_lock w).2 = traced (Hget "locks" "j1") w.
Proof.
  intros w.
  destruct (check_lock_spec w) as [_ Hheld].
  destruct (Hheld "j1" eq_refl) as (_ & Habsent & Hread).
  split; [reflexivity|]. split; [apply Habsent; reflexivity | exact Hread].
Defined.

(** The equivalence of C3 fails there: worker 7 holds job j1, the locks
    table has no record for j1 (so the stored owner is not worker 7), and
    the check does not fail with LockError. *)
Lemma check_lock_absent_owner :
  let w := with_job_id (Some "j1") (init Store.empty "7") in
  ¬ ((check_lock w).1 = Raise LockError
     ↔ Store.hget "locks" "j1" (redis w) ≠ Some (worker_id w)).
Proof.
  intros w [_ Hlost].
  assert (Habsent : Store.hget "locks" "j1" (redis w) ≠ Some (worker_id w))
    by (vm_compute; discriminate).
  specialize (Hlost Habsent). vm_compute in Hlost. discriminate.
Qed.

(** ** Cleanup *)

Lemma clean_up_idle (w : Worker) : job_id w = None → clean_up w = (Ok tt, w).
Proof. intros Hj. unfold clean_up, bind, gets. by rewrite Hj. Qed.

Lemma clean_up_held (w : Worker) (j : string) :
  job_id w = Some j →
  clean_up w
  = (Ok tt,
     {| redis := cleaned j (redis w); worker_id := worker_id w;
        log_queue := log_queue w; is_exiting := is_exiting w; job_id := None;
        pipelines := pipelines w; trace := trace w ++ clean_up_events j |}).
Proof.
  intros Hj. unfold clean_up, bind, gets. rewrite Hj. run. same_state.
Qed.

Lemma last_clean_up_events (l : list event) (j : string) :
  last (l ++ clean_up_events j) = Some (SetJobId None).
Proof. by rewrite last_app. Qed.

Lemma clean_up_clears (w : Worker) : job_id (clean_up w).2 = None.
Proof.
  destruct (job_id w) as [j|] eqn:Hj.
  - by rewrite (clean_up_held w j Hj).
  - by rewrite (clean_up_idle w Hj).
Qed.

Lemma clean_up_ok (w : Worker) : (clean_up w).1 = Ok tt.
Proof.
  destruct (job_id w) as [j|] eqn:Hj.
  - by rewrite (clean_up_held w j Hj).
  - by rewrite (clean_up_idle w Hj).
Qed.

(** C7.  Cleanup never fails; a second cleanup right after the first
    changes nothing and sends nothing to the store; with no job tracked
    cleanup changes nothing; with job [j] tracked it sends the five
    removals and only then clears the current job id. *)
Theorem clean_up_idempotent (w : Worker) :
  (clean_up w).1 = Ok tt ∧
  clean_up (clean_up w).2 = (Ok tt, (clean_up w).2) ∧
  (job_id w = None → clean_up w = (Ok tt, w)) ∧
  (∀ j, job_id w = Some j →
     trace (clean_up w).2
     = trace w ++ [Lrem "queue:concept-map:processing" 0 j; Hdel "last_updates" j;
                   Hdel "locks" j; Hdel "jobs" j; Hdel "files" j; SetJobId None]
     ∧ job_id (clean_up w).2 = None).
Proof.
  split; [apply clean_up_ok|].
  split; [apply clean_up_idle, clean_up_clears|].
  split; [apply clean_up_idle|].
  intros j Hj. by rewrite (clean_up_held w j Hj).
Qed.

Lemma clean_up_idempotent_witness :
  let w := with_job_id (Some "j1") (init (Scenario.pending_store "concept-map" "j1") "7") in
  trace (clean_up w).2
  = [Lrem "queue:concept-map:processing" 0 "j1"; Hdel "last_updates" "j1";
     Hdel "locks" "j1"; Hdel "jobs" "j1"; Hdel "files" "j1"; SetJobId None]
  ∧ clean_up (init Store.empty "7") = (Ok tt, init Store.empty "7").
Proof.
  intros w.
  destruct (clean_up_idempotent w) as (_ & _ & _ & Hheld).
  destruct (clean_up_idempotent (init Store.empty "7")) as (_ & _ & Hidle & _).
  split; [apply (Hheld "j1" eq_refl) | apply Hidle; reflexivity].
Defined.

(** ** One turn of the main loop *)

Section Turn.

Context `{PyLib}.

Local Arguments check_lock : simpl never.
Local Arguments clean_up : simpl never.

Lemma receive_ok (from_queue j pipeline : string) (w : Worker) :
  split ":" from_queue !! 1%nat = Some pipeline →
  receive from_queue j w
  = (Ok pipeline,
     {| redis := Store.lpush ("queue:" +:+ pipeline +:+ ":processing") j (redis w);
        worker_id := worker_id w;
        log_queue := log_queue w
                     ++ ["CourseMapper Worker: Received concept-map job for "
                         +:+ j +:+ "..."];
        is_exiting := is_exiting w; job_id := Some j; pipelines := pipelines w;
        trace := trace w
                 ++ [SetJobId (Some j);
                     Lpush ("queue:" +:+ pipeline +:+ ":processing") j;
                     Put ("CourseMapper Worker: Received concept-map job for "
                          +:+ j +:+ "...")] |}).
Proof.
  intros Hp. unfold receive. run. rewrite Hp. cbn. same_state.
Qed.

Lemma receive_inv (from_queue j pipeline : string) (w w' : Worker) :
  receive from_queue j w = (Ok pipeline, w') →
  split ":" from_queue !! 1%nat = Some pipeline.
Proof.
  unfold receive. run.
  destruct (split ":" from_queue !! 1%nat); cbn; congruence.
Qed.

Lemma fetch_and_lock_ok (j text : string) (job : Json) (w : Worker) :
  Store.hget "jobs" j (redis w) = Some text →
  json_loads text = Ok job →
  fetch_and_lock j w
  = (Ok job,
     {| redis := Store.hset "locks" j (worker_id w) (redis w);
        worker_id := worker_id w;
        log_queue := log_queue w
                     ++ ["CourseMapper Worker: Processing concept-map job "
                         +:+ j +:+ "..."];
        is_exiting := is_exiting w; job_id := job_id w; pipelines := pipelines w;
        trace := trace w
                 ++ [Hget "jobs" j; Hset "locks" j (worker_id w);
                     Put ("CourseMapper Worker: Processing concept-map job "
                          +:+ j +:+ "...")] |}).
Proof.
  intros Hjob Hparse. unfold fetch_and_lock. run. rewrite Hjob, Hparse. cbn.
  same_state.
Qed.

Lemma fetch_and_lock_inv (j : string) (job : Json) (w w' : Worker) :
  fetch_and_lock j w = (Ok job, w') →
  ∃ text, Store.hget "jobs" j (redis w) = Some text ∧ json_loads text = Ok job.
Proof.
  unfold fetch_and_lock. run.
  destruct (Store.hget "jobs" j (redis w)) as [text|]; [|done].
  destruct (json_loads text) as [job'|e] eqn:Hparse; cbn; [|done].
  intros [= -> _]. eauto.
Qed.

(** A turn that reaches [try:] has popped a job, pushed it on the
    processing queue named after the second field of the queue's name,
    found and parsed its arguments and written its own id as the lock. *)
Lemma dispatch_inv (queues : list string) (w : Worker) (pipeline j : string)
    (job : Json) (w' : Worker) :
  dispatch queues w = Some (pipeline, j, job, w') →
  ∃ from_queue store text,
    Store.brpop queues (redis w) = Some (from_queue, j, store)
    ∧ split ":" from_queue !! 1%nat = Some pipeline
    ∧ Store.hget "jobs" j store = Some text
    ∧ json_loads text = Ok job
    ∧ redis w' = Store.hset "locks" j (worker_id w)
                   (Store.lpush ("queue:" +:+ pipeline +:+ ":processing") j store)
    ∧ trace w' = trace w
                 ++ [Brpop queues 0 from_queue j; SetJobId (Some j);
                     Lpush ("queue:" +:+ pipeline +:+ ":processing") j;
                     Put ("CourseMapper Worker: Received concept-map job for "
                          +:+ j +:+ "...");
                     Hget "jobs" j; Hset "locks" j (worker_id w);
                     Put ("CourseMapper Worker: Processing concept-map job "
                          +:+ j +:+ "...")]
    ∧ log_queue w' = log_queue w
                     ++ ["CourseMapper Worker: Received concept-map job for "
                         +:+ j +:+ "...";
                         "CourseMapper Worker: Processing concept-map job "
                         +:+ j +:+ "..."]
    ∧ job_id w' = Some j
    ∧ worker_id w' = worker_id w
    ∧ pipelines w' = pipelines w
    ∧ is_exiting w' = is_exiting w.
Proof.
  unfold dispatch.
  destruct (Store.brpop queues (redis w)) as [[[from_queue j'] store]|]; [|done].
  unfold bind at 1.
  destruct (receive from_queue j' _) as [[p|e] w1] eqn:Hreceive; [|done].
  pose proof (receive_inv _ _ _ _ _ Hreceive) as Hp.
  rewrite (receive_ok _ _ _ _ Hp) in Hreceive.
  unfold bind at 1.
  destruct (fetch_and_lock j' w1) as [[job'|e] w2] eqn:Hfetch; [|done].
  destruct (fetch_and_lock_inv _ _ _ _ Hfetch) as (text & Htext & Hparse).
  rewrite (fetch_and_lock_ok _ _ _ _ Htext Hparse) in Hfetch.
  injection Hreceive as Hw1. injection Hfetch as Hw2. subst w1 w2. cbn.
  intros [= -> -> -> <-].
  exists from_queue, store, text. cbn.
  repeat split; try done; by rewrite <- !app_assoc.
Qed.

Lemma dispatch_loop_body (queues : list string) (w : Worker) (pipeline j : string)
    (job : Json) (w' : Worker) :
  dispatch queues w = Some (pipeline, j, job, w') →
  loop_body queues w = finish (run_job pipeline job w').
Proof.
  unfold dispatch, loop_body, iteration.
  destruct queues as [|queue queues]; [done|].
  destruct (Store.brpop (queue :: queues) (redis w)) as [[[from_queue j'] store]|];
    [|done].
  unfold bind.
  destruct (receive from_queue j' _) as [[p|e] w1]; [|done].
  destruct (fetch_and_lock j' w1) as [[job'|e] w2]; [|done].
  cbn. by intros [= -> -> -> ->].
Qed.

(** A turn that comes back to the top of the loop went through [try:]. *)
Lemma loop_body_next (queues : list string) (w w' : Worker) :
  loop_body queues w = Next w' →
  ∃ pipeline j job w1,
    dispatch queues w = Some (pipeline, j, job, w1)
    ∧ run_job pipeline job w1 = (Ok tt, w').
Proof.
  unfold dispatch, loop_body, iteration.
  destruct queues as [|queue queues]; [done|].
  destruct (Store.brpop (queue :: queues) (redis w)) as [[[from_queue j'] store]|];
    [|done].
  unfold bind.
  destruct (receive from_queue j' _) as [[p|e] w1]; [|done].
  destruct (fetch_and_lock j' w1) as [[job'|e] w2]; [|done].
  cbn. destruct (run_job p job' w2) as [[[]|e] w3] eqn:Hrun; cbn; [|done].
  intros [= ->]. by exists p, j', job', w2.
Qed.

(** *** The three ways through [try:] *)

(** The function returns and the lock is still this worker's. *)
Lemma run_job_reported (w : Worker) (pipeline j : string) (job : Json)
    (function : handler) (result : Json) (store : Redis) :
  job_id w = Some j →
  dict_get pipeline (pipelines w) = Some function →
  function job (redis w) = (Ok (Dumpable result), store) →
  Store.hget "locks" j store = Some (worker_id w) →
  run_job pipeline job w
  = (Ok tt,
     {| redis := cleaned j
                   (Store.rpush "queue:done" (json_dumps (result_record j result)) store);
        worker_id := worker_id w;
        log_queue := log_queue w ++ [finished_message];
        is_exiting := is_exiting w; job_id := None; pipelines := pipelines w;
        trace := trace w
                 ++ [Call pipeline job; Hget "locks" j;
                     Rpush "queue:done" (json_dumps (result_record j result))]
                 ++ clean_up_events j ++ [Put finished_message] |}).
Proof.
  intros Hj Hfunction Hcall Hlock.
  unfold run_job, try_except, try_block, call_pipeline.
  unfold bind at 1. rewrite Hfunction, Hcall.
  unfold bind at 1. rewrite (check_lock_held _ j) by done.
  cbn. rewrite Hlock. rewrite decide_False by (intros Hne; by apply Hne).
  run. rewrite Hj.
  rewrite (clean_up_held _ j) by done.
  cbn. same_state.
Qed.

(** The function returns and the lock record names another owner. *)
Lemma run_job_lost_lock (w : Worker) (pipeline j : string) (job : Json)
    (function : handler) (result : PyObj) (store : Redis) (owner : string) :
  job_id w = Some j →
  dict_get pipeline (pipelines w) = Some function →
  function job (redis w) = (Ok result, store) →
  Store.hget "locks" j store = Some owner →
  owner ≠ worker_id w →
  run_job pipeline job w
  = (Ok tt,
     {| redis := store; worker_id := worker_id w;
        log_queue := log_queue w ++ [lost_lock_message j];
        is_exiting := is_exiting w; job_id := Some j; pipelines := pipelines w;
        trace := trace w
                 ++ [Call pipeline job; Hget "locks" j; Put (lost_lock_message j)] |}).
Proof.
  intros Hj Hfunction Hcall Hlock Hother.
  unfold run_job, try_except, try_block, call_pipeline.
  unfold bind at 1. rewrite Hfunction, Hcall.
  unfold bind at 1. rewrite (check_lock_held _ j) by done.
  cbn. rewrite Hlock. rewrite decide_True by done.
  run. rewrite Hj. run. same_state.
Qed.

(** The function raises an exception [e] that the last clause catches. *)
Lemma run_job_errored (w : Worker) (pipeline j : string) (job : Json)
    (function : handler) (e : exn) (store : Redis) :
  job_id w = Some j →
  dict_get pipeline (pipelines w) = Some function →
  function job (redis w) = (Raise e, store) →
  e ≠ LockError →
  is_Exception e = true →
  run_job pipeline job w
  = (Ok tt,
     {| redis := cleaned j
                   (Store.rpush "queue:done" (json_dumps (error_record j e)) store);
        worker_id := worker_id w;
        log_queue := log_queue w ++ [error_message pipeline j; format_exc e];
        is_exiting := is_exiting w; job_id := None; pipelines := pipelines w;
        trace := trace w
                 ++ [Call pipeline job;
                     Rpush "queue:done" (json_dumps (error_record j e));
                     Put (error_message pipeline j); Put (format_exc e)]
                 ++ clean_up_events j |}).
Proof.
  intros Hj Hfunction Hcall Hlock Hclass.
  unfold run_job, try_except, try_block, call_pipeline.
  unfold bind at 1. rewrite Hfunction, Hcall.
  unfold except_clauses. rewrite Hclass.
  destruct e; try done.
  all: run; rewrite Hj; rewrite (clean_up_held _ j) by done.
  all: cbn; same_state.
Qed.

(** The function returns an object that [json.dumps] refuses, and the lock
    is still this worker's: the TypeError is raised under [try:], after
    the lock check and before anything is pushed, and the last clause
    catches it. *)
Lemma run_job_refused (w : Worker) (pipeline j : string) (job : Json)
    (function : handler) (msg : string) (store : Redis) :
  job_id w = Some j →
  dict_get pipeline (pipelines w) = Some function →
  function job (redis w) = (Ok (Refused msg), store) →
  Store.hget "locks" j store = Some (worker_id w) →
  run_job pipeline job w
  = (Ok tt,
     {| redis := cleaned j
                   (Store.rpush "queue:done"
                      (json_dumps (error_record j (TypeError msg))) store);
        worker_id := worker_id w;
        log_queue := log_queue w
                     ++ [error_message pipeline j; format_exc (TypeError msg)];
        is_exiting := is_exiting w; job_id := None; pipelines := pipelines w;
        trace := trace w
                 ++ [Call pipeline job; Hget "locks" j;
                     Rpush "queue:done" (json_dumps (error_record j (TypeError msg)));
                     Put (error_message pipeline j); Put (format_exc (TypeError msg))]
                 ++ clean_up_events j |}).
Proof.
  intros Hj Hfunction Hcall Hlock.
  unfold run_job, try_except, try_block, call_pipeline.
  unfold bind at 1. rewrite Hfunction, Hcall.
  unfold bind at 1. rewrite (check_lock_held _ j) by done.
  cbn. rewrite Hlock. rewrite decide_False by (intros Hne; by apply Hne).
  run. rewrite Hj. cbn.
  rewrite (clean_up_held _ j) by done.
  cbn. same_state.
Qed.

(** The function returns and the lock record of the job is gone: the
    assertion of [check_lock] fails under [try:]. *)
Lemma run_job_unlocked (w : Worker) (pipeline j : string) (job : Json)
    (function : handler) (result : PyObj) (store : Redis) :
  job_id w = Some j →
  dict_get pipeline (pipelines w) = Some function →
  function job (redis w) = (Ok result, store) →
  Store.hget "locks" j store = None →
  run_job pipeline job w
  = except_clauses pipeline AssertionError
      (traced (Hget "locks" j)
         (traced (Call pipeline job) (with_redis (λ _, store) w))).
Proof.
  intros Hj Hfunction Hcall Hlock.
  unfold run_job, try_except, try_block, call_pipeline.
  unfold bind at 1. rewrite Hfunction, Hcall.
  unfold bind at 1. rewrite (check_lock_held _ j) by done.
  cbn. by rewrite Hlock.
Qed.

(** No function is registered under the name read off the queue: the
    lookup raises KeyError under [try:], before any call. *)
Lemma run_job_unregistered (w : Worker) (pipeline : string) (job : Json) :
  dict_get pipeline (pipelines w) = None →
  run_job pipeline job w = except_clauses pipeline (KeyError pipeline) w.
Proof.
  intros Hfunction.
  unfold run_job, try_except, try_block, call_pipeline.
  unfold bind at 1. by rewrite Hfunction.
Qed.

(** The first clause: the message is put and nothing else is done. *)
Lemma except_clauses_lost_lock (w : Worker) (pipeline j : string) :
  job_id w = Some j →
  except_clauses pipeline LockError w
  = (Ok tt,
     {| redis := redis w; worker_id := worker_id w;
        log_queue := log_queue w ++ [lost_lock_message j];
        is_exiting := is_exiting w; job_id := Some j; pipelines := pipelines w;
        trace := trace w ++ [Put (lost_lock_message j)] |}).
Proof.
  intros Hj. unfold except_clauses. run. rewrite Hj. cbn. same_state.
Qed.

(** An exception that is neither LockError nor an Exception is not handled
    in the turn: KeyboardInterrupt becomes SystemExit, the others pass. *)
Lemma except_clauses_leaves (w : Worker) (pipeline : string) (e : exn) :
  e ≠ LockError →
  is_Exception e = false →
  ∃ e', except_clauses pipeline e w = (Raise e', w).
Proof.
  intros Hother Hclass. destruct e; try done; by eexists.
Qed.

Lemma run_job_raised (w : Worker) (pipeline : string) (job : Json)
    (function : handler) (e : exn) (store : Redis) :
  dict_get pipeline (pipelines w) = Some function →
  function job (redis w) = (Raise e, store) →
  run_job pipeline job w
  = except_clauses pipeline e (traced (Call pipeline job) (with_redis (λ _, store) w)).
Proof.
  intros Hfunction Hcall.
  unfold run_job, try_except, try_block, call_pipeline.
  unfold bind at 1. by rewrite Hfunction, Hcall.
Qed.

(** The last clause, on any state where [j] is the current job. *)
Lemma except_clauses_error (w : Worker) (pipeline j : string) (e : exn) :
  job_id w = Some j →
  e ≠ LockError →
  is_Exception e = true →
  except_clauses pipeline e w
  = (Ok tt,
     {| redis := cleaned j
                   (Store.rpush "queue:done" (json_dumps (error_record j e)) (redis w));
        worker_id := worker_id w;
        log_queue := log_queue w ++ [error_message pipeline j; format_exc e];
        is_exiting := is_exiting w; job_id := None; pipelines := pipelines w;
        trace := trace w
                 ++ [Rpush "queue:done" (json_dumps (error_record j e));
                     Put (error_message pipeline j); Put (format_exc e)]
                 ++ clean_up_events j |}).
Proof.
  intros Hj Hother Hclass. unfold except_clauses. rewrite Hclass.
  destruct e; try done.
  all: run; rewrite Hj; rewrite (clean_up_held _ j) by done.
  all: cbn; same_state.
Qed.

Lemma lrange_cleaned_ne (j key : string) (r : Redis) :
  key ≠ "queue:concept-map:processing" →
  Store.lrange key (cleaned j r) = Store.lrange key r.
Proof. intros Hne. unfold cleaned. by apply lrange_lrem_ne. Qed.

(** After cleanup the three records of the job are gone from their
    tables, and so is its file. *)
Lemma hget_cleaned (j : string) (r : Redis) :
  Store.hget "last_updates" j (cleaned j r) = None
  ∧ Store.hget "locks" j (cleaned j r) = None
  ∧ Store.hget "jobs" j (cleaned j r) = None
  ∧ Store.hget "files" j (cleaned j r) = None.
Proof.
  unfold cleaned. repeat split.
  - rewrite !hget_hdel_ne by done. apply hget_hdel.
  - rewrite !hget_hdel_ne by done. apply hget_hdel.
  - rewrite !hget_hdel_ne by done. apply hget_hdel.
  - apply hget_hdel.
Qed.

Lemma lrange_processing_cleaned (j : string) (r : Redis) :
  j ∉ Store.lrange "queue:concept-map:processing" (cleaned j r).
Proof. apply lrem_all_gone. Qed.

End Turn.

(** ** The endings of a turn *)

Section Endings.

Context `{PyLib}.

(** C4.  A job was dispatched, its function returned, and the lock record
    then names another owner, so the check after the call raises
    LockError.  The turn comes back to the top of the loop; the store is
    what the call left (nothing was pushed on the done stream, nothing was
    removed); after the call the worker only read the lock and put the
    lost-lock message on the log queue. *)
Theorem lost_lock_turn (queues : list string) (w w1 : Worker) (pipeline j : string)
    (job : Json) (result : PyObj) (function : handler) (store : Redis)
    (owner : string) :
  dispatch queues w = Some (pipeline, j, job, w1) →
  dict_get pipeline (pipelines w) = Some function →
  function job (redis w1) = (Ok result, store) →
  Store.hget "locks" j store = Some owner →
  owner ≠ worker_id w →
  ∃ w', loop_body queues w = Next w'
        ∧ redis w' = store
        ∧ Store.lrange "queue:done" (redis w') = Store.lrange "queue:done" store
        ∧ trace w' = trace w1 ++ [Call pipeline job; Hget "locks" j;
                                  Put ("CourseMapper Worker: Lost lock for job " +:+ j)]
        ∧ log_queue w' = log_queue w1
                         ++ ["CourseMapper Worker: Lost lock for job " +:+ j].
Proof.
  intros Hdispatch Hfunction Hcall Hlock Hother.
  destruct (dispatch_inv _ _ _ _ _ _ Hdispatch)
    as (_ & _ & _ & _ & _ & _ & _ & _ & _ & _ & Hj & Hid & Hpipelines & _).
  rewrite <- Hpipelines in Hfunction. rewrite <- Hid in Hother.
  rewrite (dispatch_loop_body _ _ _ _ _ _ Hdispatch).
  rewrite (run_job_lost_lock _ _ _ _ _ _ _ _ Hj Hfunction Hcall Hlock Hother).
  eexists. split; [reflexivity|]. by cbn.
Qed.

(** C5, as amended.  A job was dispatched, its function returned a value
    [result] that [json.dumps] serialises, and the lock record still names
    this worker.  The turn comes back to the top of the loop, and what it
    did after the call is, in this order: the lock check, one push of the
    record with the job id and the result on the done stream, the cleanup,
    the completion message. *)
Theorem reported_turn (queues : list string) (w w1 : Worker) (pipeline j : string)
    (job result : Json) (function : handler) (store : Redis) :
  dispatch queues w = Some (pipeline, j, job, w1) →
  dict_get pipeline (pipelines w) = Some function →
  function job (redis w1) = (Ok (Dumpable result), store) →
  Store.hget "locks" j store = Some (worker_id w) →
  ∃ w', loop_body queues w = Next w'
        ∧ trace w'
          = trace w1
            ++ [Call pipeline job;
                Hget "locks" j;
                Rpush "queue:done"
                  (json_dumps (JObject [("job_id", JString j); ("result", result)]));
                Lrem "queue:concept-map:processing" 0 j;
                Hdel "last_updates" j; Hdel "locks" j; Hdel "jobs" j; Hdel "files" j;
                SetJobId None;
                Put finished_message]
        ∧ Store.lrange "queue:done" (redis w')
          = Store.lrange "queue:done" store
            ++ [json_dumps (JObject [("job_id", JString j); ("result", result)])]
        ∧ job_id w' = None.
Proof.
  intros Hdispatch Hfunction Hcall Hlock.
  destruct (dispatch_inv _ _ _ _ _ _ Hdispatch)
    as (_ & _ & _ & _ & _ & _ & _ & _ & _ & _ & Hj & Hid & Hpipelines & _).
  rewrite <- Hpipelines in Hfunction. rewrite <- Hid in Hlock.
  rewrite (dispatch_loop_body _ _ _ _ _ _ Hdispatch).
  rewrite (run_job_reported _ _ _ _ _ _ _ Hj Hfunction Hcall Hlock).
  eexists. split; [reflexivity|]. cbn. repeat split.
  rewrite lrange_cleaned_ne by done. apply lrange_rpush.
Qed.

(** X23.  The other half of C5: the function returned, the lock record
    still names this worker, and [json.dumps] refuses what was returned.  No
    result record is pushed and no completion message is put: the turn
    ends as the error path does, on one record with the job id and the
    message of the TypeError. *)
Lemma refused_turn (queues : list string) (w w1 : Worker) (pipeline j : string)
    (job : Json) (function : handler) (msg : string) (store : Redis) :
  dispatch queues w = Some (pipeline, j, job, w1) →
  dict_get pipeline (pipelines w) = Some function →
  function job (redis w1) = (Ok (Refused msg), store) →
  Store.hget "locks" j store = Some (worker_id w) →
  ∃ w', loop_body queues w = Next w'
        ∧ trace w'
          = trace w1
            ++ [Call pipeline job;
                Hget "locks" j;
                Rpush "queue:done"
                  (json_dumps (JObject [("job_id", JString j);
                                        ("error", JString msg)]));
                Put ("CourseMapper Worker: Error processing " +:+ pipeline
                     +:+ " job " +:+ j);
                Put (format_exc (TypeError msg));
                Lrem "queue:concept-map:processing" 0 j;
                Hdel "last_updates" j; Hdel "locks" j; Hdel "jobs" j; Hdel "files" j;
                SetJobId None]
        ∧ Store.lrange "queue:done" (redis w')
          = Store.lrange "queue:done" store
            ++ [json_dumps (JObject [("job_id", JString j); ("error", JString msg)])]
        ∧ job_id w' = None.
Proof.
  intros Hdispatch Hfunction Hcall Hlock.
  destruct (dispatch_inv _ _ _ _ _ _ Hdispatch)
    as (_ & _ & _ & _ & _ & _ & _ & _ & _ & _ & Hj & Hid & Hpipelines & _).
  rewrite <- Hpipelines in Hfunction. rewrite <- Hid in Hlock.
  rewrite (dispatch_loop_body _ _ _ _ _ _ Hdispatch).
  rewrite (run_job_refused _ _ _ _ _ _ _ Hj Hfunction Hcall Hlock).
  eexists. split; [reflexivity|]. cbn. repeat split.
  rewrite lrange_cleaned_ne by done. apply lrange_rpush.
Qed.

(** C6 does not hold of the code: the cleanup of the error path is the
    cleanup of C1.  A job was dispatched and its function raised an
    exception [e] that is an Exception and is not LockError.  The turn
    comes back to the top of the loop; after the call it pushed one record
    with the job id and [str(e)] on the done stream, put the error message
    and the traceback on the log queue, and ran [clean_up]: the liveness,
    lock, argument and file records of the job are gone and no job is
    current.  Of the lists, the done stream gained the record,
    queue:concept-map:processing lost every occurrence of the job id, and
    every other list is as the function left it.  So for a pipeline other
    than concept-map whose function leaves its processing queue alone, the
    job id is still on queue:<pipeline>:processing after the turn: the
    cleanup is not the full one. *)
Theorem errored_turn (queues : list string) (w w1 : Worker) (pipeline j : string)
    (job : Json) (function : handler) (e : exn) (store : Redis) :
  dispatch queues w = Some (pipeline, j, job, w1) →
  dict_get pipeline (pipelines w) = Some function →
  function job (redis w1) = (Raise e, store) →
  e ≠ LockError →
  is_Exception e = true →
  ∃ w', loop_body queues w = Next w'
        ∧ trace w'
          = trace w1
            ++ [Call pipeline job;
                Rpush "queue:done"
                  (json_dumps (JObject [("job_id", JString j);
                                        ("error", JString (str_exn e))]));
                Put ("CourseMapper Worker: Error processing " +:+ pipeline
                     +:+ " job " +:+ j);
                Put (format_exc e);
                Lrem "queue:concept-map:processing" 0 j;
                Hdel "last_updates" j; Hdel "locks" j; Hdel "jobs" j; Hdel "files" j;
                SetJobId None]
        ∧ Store.lrange "queue:done" (redis w')
          = Store.lrange "queue:done" store
            ++ [json_dumps (JObject [("job_id", JString j);
                                     ("error", JString (str_exn e))])]
        ∧ log_queue w'
          = log_queue w1
            ++ ["CourseMapper Worker: Error processing " +:+ pipeline +:+ " job " +:+ j;
                format_exc e]
        ∧ Store.hget "last_updates" j (redis w') = None
        ∧ Store.hget "locks" j (redis w') = None
        ∧ Store.hget "jobs" j (redis w') = None
        ∧ job_id w' = None
        ∧ Store.hget "files" j (redis w') = None
        ∧ Store.lrange "queue:concept-map:processing" (redis w')
          = filter (λ x, x ≠ j) (Store.lrange "queue:concept-map:processing" store)
        ∧ (∀ queue, queue ≠ "queue:done" → queue ≠ "queue:concept-map:processing" →
                    Store.lrange queue (redis w') = Store.lrange queue store)
        ∧ (pipeline ≠ "concept-map" →
           Store.lrange ("queue:" +:+ pipeline +:+ ":processing") store
           = Store.lrange ("queue:" +:+ pipeline +:+ ":processing") (redis w1) →
           j ∈ Store.lrange ("queue:" +:+ pipeline +:+ ":processing") (redis w')).
Proof.
  intros Hdispatch Hfunction Hcall Hother Hclass.
  destruct (dispatch_inv _ _ _ _ _ _ Hdispatch)
    as (from_queue & store0 & text & _ & _ & _ & _ & Hredis & _ & _
        & Hj & Hid & Hpipelines & _).
  rewrite <- Hpipelines in Hfunction.
  rewrite (dispatch_loop_body _ _ _ _ _ _ Hdispatch).
  rewrite (run_job_errored _ _ _ _ _ _ _ Hj Hfunction Hcall Hother Hclass).
  eexists. split; [reflexivity|]. cbn [redis trace log_queue job_id].
  destruct (hget_cleaned j
              (Store.rpush "queue:done" (json_dumps (error_record j e)) store))
    as (Hupdates & Hlocks & Hjobs & Hfiles).
  assert (Hlists : ∀ queue, queue ≠ "queue:done" →
            queue ≠ "queue:concept-map:processing" →
            Store.lrange queue
              (cleaned j (Store.rpush "queue:done" (json_dumps (error_record j e)) store))
            = Store.lrange queue store).
  { intros queue Hdone Hprocessing.
    rewrite lrange_cleaned_ne by done.
    unfold Store.rpush. by rewrite lrange_set_list_ne. }
  split; [done|].
  split; [rewrite lrange_cleaned_ne by done; apply lrange_rpush|].
  repeat (split; [done|]).
  split.
  { unfold cleaned.
    repeat change (Store.lrange ?k (Store.hdel _ _ ?r)) with (Store.lrange k r).
    rewrite lrange_lrem. unfold Store.lrem_list. rewrite decide_True by done.
    unfold Store.rpush. by rewrite lrange_set_list_ne. }
  split; [exact Hlists|].
  intros Hpipeline Hkept.
  rewrite Hlists; cycle 1.
  { intros Heq. symmetry in Heq. by apply done_is_no_processing_queue in Heq. }
  { change "queue:concept-map:processing"
      with ("queue:" +:+ "concept-map" +:+ ":processing").
    intros Heq. by apply processing_queue_inj in Heq. }
  rewrite Hkept, Hredis.
  change (Store.lrange ?k (Store.hset _ _ _ ?r)) with (Store.lrange k r).
  rewrite lrange_lpush. apply list_elem_of_here.
Qed.

(** C10.  On the success path the completion message is built after the
    cleanup has set the current job id to None: whatever the id of the job
    that was processed, the message put on the log queue ends in
    "job None", and it is put right after the assignment that clears the
    id. *)
Theorem finished_message_names_no_job (queues : list string) (w w1 : Worker)
    (pipeline j : string) (job result : Json) (function : handler) (store : Redis) :
  dispatch queues w = Some (pipeline, j, job, w1) →
  dict_get pipeline (pipelines w) = Some function →
  function job (redis w1) = (Ok (Dumpable result), store) →
  Store.hget "locks" j store = Some (worker_id w) →
  ∃ w' before,
    loop_body queues w = Next w'
    ∧ trace w'
      = before
        ++ [Hdel "files" j; SetJobId None;
            Put "CourseMapper Worker: Finished processing concept-map job None"]
    ∧ last (log_queue w')
      = Some "CourseMapper Worker: Finished processing concept-map job None".
Proof.
  intros Hdispatch Hfunction Hcall Hlock.
  destruct (dispatch_inv _ _ _ _ _ _ Hdispatch)
    as (_ & _ & _ & _ & _ & _ & _ & _ & _ & _ & Hj & Hid & Hpipelines & _).
  rewrite <- Hpipelines in Hfunction. rewrite <- Hid in Hlock.
  rewrite (dispatch_loop_body _ _ _ _ _ _ Hdispatch).
  rewrite (run_job_reported _ _ _ _ _ _ _ Hj Hfunction Hcall Hlock).
  eexists.
  exists (trace w1
          ++ [Call pipeline job; Hget "locks" j;
              Rpush "queue:done" (json_dumps (result_record j result));
              Lrem "queue:concept-map:processing" 0 j;
              Hdel "last_updates" j; Hdel "locks" j; Hdel "jobs" j]).
  split; [reflexivity|]. cbn. split.
  - by rewrite <- !app_assoc.
  - by rewrite last_snoc.
Qed.

(** C8, as amended.  A job [j] was dispatched; what the current job id is
    when the turn is back at the top of the loop is settled by what the
    call of the pipeline function and the lock check after it gave, path
    by path.
    - Lost lock: the function returned and the lock record names another
      owner, or the function itself raised LockError.  The turn comes back
      with [j] still the current job and the store as the function left
      it: nothing is cleaned.
    - Success and error: the function returned and the lock record names
      this worker (whether [json.dumps] then accepts the result or not),
      or the lock record is gone, or the function raised an Exception
      other than LockError, or no function is registered.  The turn comes
      back with no current job.
    - An exception that is not an Exception does not come back to the top
      of the loop at all: it leaves [start]. *)
Theorem job_id_at_top_of_loop (queues : list string) (w w1 : Worker)
    (pipeline j : string) (job : Json) :
  dispatch queues w = Some (pipeline, j, job, w1) →
  (∀ function result store owner,
     dict_get pipeline (pipelines w) = Some function →
     function job (redis w1) = (Ok result, store) →
     Store.hget "locks" j store = Some owner →
     owner ≠ worker_id w →
     ∃ w', loop_body queues w = Next w' ∧ job_id w' = Some j ∧ redis w' = store)
  ∧ (∀ function store,
       dict_get pipeline (pipelines w) = Some function →
       function job (redis w1) = (Raise LockError, store) →
       ∃ w', loop_body queues w = Next w' ∧ job_id w' = Some j ∧ redis w' = store)
  ∧ (∀ function result store,
       dict_get pipeline (pipelines w) = Some function →
       function job (redis w1) = (Ok result, store) →
       Store.hget "locks" j store = Some (worker_id w) →
       ∃ w', loop_body queues w = Next w' ∧ job_id w' = None)
  ∧ (∀ function result store,
       dict_get pipeline (pipelines w) = Some function →
       function job (redis w1) = (Ok result, store) →
       Store.hget "locks" j store = None →
       ∃ w', loop_body queues w = Next w' ∧ job_id w' = None)
  ∧ (∀ function e store,
       dict_get pipeline (pipelines w) = Some function →
       function job (redis w1) = (Raise e, store) →
       e ≠ LockError →
       is_Exception e = true →
       ∃ w', loop_body queues w = Next w' ∧ job_id w' = None)
  ∧ (dict_get pipeline (pipelines w) = None →
     ∃ w', loop_body queues w = Next w' ∧ job_id w' = None)
  ∧ (∀ function e store,
       dict_get pipeline (pipelines w) = Some function →
       function job (redis w1) = (Raise e, store) →
       e ≠ LockError →
       is_Exception e = false →
       ∃ e' w', loop_body queues w = Leaves e' w').
Proof.
  intros Hdispatch.
  destruct (dispatch_inv _ _ _ _ _ _ Hdispatch)
    as (_ & _ & _ & _ & _ & _ & _ & _ & _ & _ & Hj & Hid & Hpipelines & _).
  rewrite (dispatch_loop_body _ _ _ _ _ _ Hdispatch).
  rewrite <- Hpipelines, <- Hid. clear Hdispatch Hpipelines Hid.
  repeat split.
  - intros function result store owner Hfunction Hcall Hlock Hother.
    rewrite (run_job_lost_lock _ _ _ _ _ _ _ _ Hj Hfunction Hcall Hlock Hother).
    by eexists.
  - intros function store Hfunction Hcall.
    rewrite (run_job_raised _ _ _ _ _ _ Hfunction Hcall).
    rewrite (except_clauses_lost_lock _ _ j) by done.
    by eexists.
  - intros function [result|msg] store Hfunction Hcall Hlock.
    + rewrite (run_job_reported _ _ _ _ _ _ _ Hj Hfunction Hcall Hlock).
      by eexists.
    + rewrite (run_job_refused _ _ _ _ _ _ _ Hj Hfunction Hcall Hlock).
      by eexists.
  - intros function result store Hfunction Hcall Hlock.
    rewrite (run_job_unlocked _ _ _ _ _ _ _ Hj Hfunction Hcall Hlock).
    rewrite (except_clauses_error _ _ j) by done.
    by eexists.
  - intros function e store Hfunction Hcall Hother Hclass.
    rewrite (run_job_errored _ _ _ _ _ _ _ Hj Hfunction Hcall Hother Hclass).
    by eexists.
  - intros Hfunction.
    rewrite (run_job_unregistered _ _ _ Hfunction).
    rewrite (except_clauses_error _ _ j) by done.
    by eexists.
  - intros function e store Hfunction Hcall Hother Hclass.
    rewrite (run_job_raised _ _ _ _ _ _ Hfunction Hcall).
    destruct (except_clauses_leaves
                (traced (Call pipeline job) (with_redis (λ _, store) w1))
                pipeline e Hother Hclass) as [e' ->].
    by eexists _, _.
Qed.

End Endings.

(** One turn of [start] is one turn of the loop over the pending queues of
    the registered pipelines. *)
Lemma start_one_turn `{PyLib} (w w' : Worker) :
  loop_body (pending_queues w) w = Next w' → start 1 w = Next w'.
Proof. intros Hnext. unfold start. cbn [main_loop]. by rewrite Hnext. Qed.

(** *** The scenarios of the specification *)

(** The state at [try:] is read off [dispatch]; what remains to compute is
    the pipeline, the job id and the parsed job. *)
Lemma dispatch_at_try (w : Worker) (pipeline j : string) (job : Json) :
  fst <$> @dispatch Scenario.lib (pending_queues w) w = Some (pipeline, j, job) →
  @dispatch Scenario.lib (pending_queues w) w
  = Some (pipeline, j, job, Scenario.at_try w).
Proof.
  unfold Scenario.at_try.
  destruct (dispatch (pending_queues w) w) as [[d w1]|]; cbn; congruence.
Qed.

Lemma lost_lock_turn_witness :
  let w := Scenario.worker "concept-map" (Scenario.loses_lock "j1" "8") in
  ∃ w', @start Scenario.lib 1 w = Next w'
        ∧ Store.lrange "queue:done" (redis w') = []
        ∧ Store.hget "locks" "j1" (redis w') = Some "8"
        ∧ Store.hget "jobs" "j1" (redis w') = Some Scenario.text_x1
        ∧ Store.lrange "queue:concept-map:processing" (redis w') = ["j1"]
        ∧ last (log_queue w') = Some "CourseMapper Worker: Lost lock for job j1".
Proof.
  intros w.
  destruct (@lost_lock_turn Scenario.lib (pending_queues w) w
              (Scenario.at_try w) "concept-map" "j1" Scenario.job_x1
              (Dumpable (JObject [("y", JInt 2)])) (Scenario.loses_lock "j1" "8")
              (Store.hset "locks" "j1" "8" (redis (Scenario.at_try w))) "8")
    as (w' & Hnext & Hredis & _ & _ & Hlog).
  - apply dispatch_at_try. vm_compute; reflexivity.
  - reflexivity.
  - reflexivity.
  - vm_compute; reflexivity.
  - vm_compute; discriminate.
  - exists w'. split; [exact (start_one_turn w w' Hnext)|]. rewrite Hredis, Hlog.
    vm_compute. repeat split.
Defined.

Lemma reported_turn_witness :
  let w := Scenario.worker "concept-map" Scenario.returns_y2 in
  ∃ w', @start Scenario.lib 1 w = Next w'
        ∧ Store.lrange "queue:done" (redis w')
          = [Scenario.text "{'job_id': 'j1', 'result': {'y': 2}}"]
        ∧ job_id w' = None.
Proof.
  intros w.
  destruct (@reported_turn Scenario.lib (pending_queues w) w
              (Scenario.at_try w) "concept-map" "j1" Scenario.job_x1
              (JObject [("y", JInt 2)]) Scenario.returns_y2
              (redis (Scenario.at_try w)))
    as (w' & Hnext & _ & Hdone & Hidle).
  - apply dispatch_at_try. vm_compute; reflexivity.
  - reflexivity.
  - reflexivity.
  - vm_compute; reflexivity.
  - exists w'. split; [exact (start_one_turn w w' Hnext)|]. split; [|exact Hidle].
    rewrite Hdone. vm_compute. reflexivity.
Defined.

(** C5 as stated fails.  Worker 7 claims j1 for concept-map; the function
    returns a set and leaves the store alone, so the lock record still
    names worker 7 and the lock check passes.  [json.dumps] then raises
    TypeError under [try:]: the one record on the done stream is the error
    record, no result record is pushed, and the log queue ends on the
    error message and the traceback: no completion message is put. *)
Lemma refused_result_is_reported_as_error :
  let w := Scenario.worker "concept-map" Scenario.returns_set in
  Scenario.returns_set Scenario.job_x1 (redis (Scenario.at_try w))
  = (Ok (Refused Scenario.no_set), redis (Scenario.at_try w))
  ∧ Store.hget "locks" "j1" (redis (Scenario.at_try w)) = Some (worker_id w)
  ∧ match @loop_body Scenario.lib ["queue:concept-map:pending"] w with
    | Next w' =>
        Store.lrange "queue:done" (redis w')
        = [Scenario.text
             "{'job_id': 'j1', 'error': 'Object of type set is not JSON serializable'}"]
        ∧ reports (trace w') = 1%nat
        ∧ log_queue w'
          = ["CourseMapper Worker: Received concept-map job for j1...";
             "CourseMapper Worker: Processing concept-map job j1...";
             "CourseMapper Worker: Error processing concept-map job j1";
             @format_exc Scenario.lib (TypeError Scenario.no_set)]
    | _ => False
    end.
Proof.
  intros w. split; [reflexivity|]. split; [vm_compute; reflexivity|].
  vm_compute. repeat split.
Qed.

Lemma refused_turn_witness :
  let w := Scenario.worker "concept-map" Scenario.returns_set in
  ∃ w', @start Scenario.lib 1 w = Next w'
        ∧ Store.lrange "queue:done" (redis w')
          = [Scenario.text
               "{'job_id': 'j1', 'error': 'Object of type set is not JSON serializable'}"]
        ∧ job_id w' = None.
Proof.
  intros w.
  destruct (@refused_turn Scenario.lib (pending_queues w) w
              (Scenario.at_try w) "concept-map" "j1" Scenario.job_x1
              Scenario.returns_set Scenario.no_set
              (redis (Scenario.at_try w)))
    as (w' & Hnext & _ & Hdone & Hidle).
  - apply dispatch_at_try. vm_compute; reflexivity.
  - reflexivity.
  - reflexivity.
  - vm_compute; reflexivity.
  - exists w'. split; [exact (start_one_turn w w' Hnext)|]. split; [|exact Hidle].
    rewrite Hdone. vm_compute. reflexivity.
Defined.

Lemma errored_turn_witness :
  let w := add_pipeline "b" Scenario.raises_boom
             (add_pipeline "a" Scenario.raises_boom
                (init (Scenario.pending_store "b" "j1") "7")) in
  ∃ w', @start Scenario.lib 1 w = Next w'
        ∧ Store.lrange "queue:done" (redis w')
          = [Scenario.text "{'job_id': 'j1', 'error': 'boom'}"]
        ∧ Store.hget "jobs" "j1" (redis w') = None
        ∧ job_id w' = None
        ∧ "j1" ∈ Store.lrange "queue:b:processing" (redis w').
Proof.
  intros w.
  destruct (@errored_turn Scenario.lib (pending_queues w) w
              (Scenario.at_try w) "b" "j1" Scenario.job_x1
              Scenario.raises_boom (Exception_ "boom")
              (redis (Scenario.at_try w)))
    as (w' & Hnext & _ & Hdone & _ & _ & _ & Hjobs & Hidle & _ & _ & _ & Hstill).
  - apply dispatch_at_try. vm_compute; reflexivity.
  - reflexivity.
  - reflexivity.
  - discriminate.
  - reflexivity.
  - exists w'. split; [exact (start_one_turn w w' Hnext)|].
    split; [rewrite Hdone; vm_compute; reflexivity|].
    split; [exact Hjobs|]. split; [exact Hidle|].
    apply Hstill; [discriminate | reflexivity].
Defined.

Lemma finished_message_names_no_job_witness :
  let w := Scenario.worker "concept-map" Scenario.returns_y2 in
  ∃ w', @start Scenario.lib 1 w = Next w'
        ∧ last (log_queue w')
          = Some "CourseMapper Worker: Finished processing concept-map job None".
Proof.
  intros w.
  destruct (@finished_message_names_no_job Scenario.lib (pending_queues w) w
              (Scenario.at_try w) "concept-map" "j1" Scenario.job_x1
              (JObject [("y", JInt 2)]) Scenario.returns_y2
              (redis (Scenario.at_try w)))
    as (w' & before & Hnext & _ & Hlast).
  - apply dispatch_at_try. vm_compute; reflexivity.
  - reflexivity.
  - reflexivity.
  - vm_compute; reflexivity.
  - exists w'. split; [exact (start_one_turn w w' Hnext) | exact Hlast].
Defined.

Lemma job_id_at_top_of_loop_witness :
  let w := Scenario.worker "concept-map" (Scenario.loses_lock "j1" "8") in
  ∃ w', @start Scenario.lib 1 w = Next w'
        ∧ job_id w' = Some "j1"
        ∧ Store.hget "jobs" "j1" (redis w') = Some Scenario.text_x1.
Proof.
  intros w.
  destruct (@job_id_at_top_of_loop Scenario.lib (pending_queues w) w
              (Scenario.at_try w) "concept-map" "j1" Scenario.job_x1)
    as (Hlost & _).
  - apply dispatch_at_try. vm_compute; reflexivity.
  - destruct (Hlost (Scenario.loses_lock "j1" "8")
                (Dumpable (JObject [("y", JInt 2)]))
                (Store.hset "locks" "j1" "8" (redis (Scenario.at_try w))) "8")
      as (w' & Hnext & Hj & Hredis).
    + reflexivity.
    + reflexivity.
    + vm_compute; reflexivity.
    + vm_compute; discriminate.
    + exists w'. split; [exact (start_one_turn w w' Hnext)|].
      split; [exact Hj|]. rewrite Hredis. vm_compute. reflexivity.
Defined.

(** C8 as stated fails: worker 7 claims j1, another worker takes the lock
    while the pipeline runs, and the turn comes back to the top of the loop
    with j1 still the current job. *)
Lemma job_id_kept_after_lost_lock :
  match @loop_body Scenario.lib ["queue:concept-map:pending"]
          (Scenario.worker "concept-map" (Scenario.loses_lock "j1" "8")) with
  | Next w' => job_id w' = Some "j1" ∧ job_id w' ≠ None
  | _ => False
  end.
Proof. vm_compute. split; [reflexivity | discriminate]. Qed.

(** ** Cleanup and the processing queues *)



Section Processing.

Context `{PyLib}.

(** C1 does not hold of the code.  A job [j] is claimed from the pending
    queue of a pipeline other than concept-map and runs to the cleanup
    (its function returns and the lock is still this worker's), the
    pipeline function leaving the processing queue as it found it.  After the turn the liveness, lock and argument records of [j] are
    gone, but [j] is still on the processing queue of its pipeline:
    [clean_up] removes it from queue:concept-map:processing only. *)
Theorem clean_up_leaves_processing_queue (queues : list string) (w w1 : Worker)
    (pipeline j : string) (job : Json) (result : PyObj) (function : handler)
    (store : Redis) :
  dispatch queues w = Some (pipeline, j, job, w1) →
  pipeline ≠ "concept-map" →
  dict_get pipeline (pipelines w) = Some function →
  function job (redis w1) = (Ok result, store) →
  Store.hget "locks" j store = Some (worker_id w) →
  Store.lrange ("queue:" +:+ pipeline +:+ ":processing") store
  = Store.lrange ("queue:" +:+ pipeline +:+ ":processing") (redis w1) →
  ∃ w', loop_body queues w = Next w'
        ∧ j ∈ Store.lrange ("queue:" +:+ pipeline +:+ ":processing") (redis w')
        ∧ Store.hget "last_updates" j (redis w') = None
        ∧ Store.hget "locks" j (redis w') = None
        ∧ Store.hget "jobs" j (redis w') = None.
Proof.
  intros Hdispatch Hpipeline Hfunction Hcall Hlock Hkept.
  destruct (dispatch_inv _ _ _ _ _ _ Hdispatch)
    as (from_queue & store0 & text & _ & _ & _ & _ & Hredis & _ & _
        & Hj & Hid & Hpipelines & _).
  rewrite <- Hpipelines in Hfunction. rewrite <- Hid in Hlock.
  rewrite (dispatch_loop_body _ _ _ _ _ _ Hdispatch).
  assert (Hstill : ∀ data,
            j ∈ Store.lrange ("queue:" +:+ pipeline +:+ ":processing")
                  (cleaned j (Store.rpush "queue:done" data store))).
  { intros data. rewrite lrange_cleaned_ne; cycle 1.
    { change "queue:concept-map:processing"
        with ("queue:" +:+ "concept-map" +:+ ":processing").
      intros Heq. by apply processing_queue_inj in Heq. }
    unfold Store.rpush.
    rewrite lrange_set_list_ne by apply done_is_no_processing_queue.
    rewrite Hkept, Hredis.
    change (Store.lrange ?k (Store.hset _ _ _ ?r)) with (Store.lrange k r).
    rewrite lrange_lpush. apply list_elem_of_here. }
  destruct result as [result|msg].
  - rewrite (run_job_reported _ _ _ _ _ _ _ Hj Hfunction Hcall Hlock).
    eexists. split; [reflexivity|]. cbn [redis].
    destruct (hget_cleaned j
                (Store.rpush "queue:done" (json_dumps (result_record j result)) store))
      as (Hupdates & Hlocks & Hjobs & _).
    by repeat split.
  - rewrite (run_job_refused _ _ _ _ _ _ _ Hj Hfunction Hcall Hlock).
    eexists. split; [reflexivity|]. cbn [redis].
    destruct (hget_cleaned j
                (Store.rpush "queue:done"
                   (json_dumps (error_record j (TypeError msg))) store))
      as (Hupdates & Hlocks & Hjobs & _).
    by repeat split.
Qed.

End Processing.

Lemma clean_up_leaves_processing_queue_witness :
  let w := add_pipeline "b" Scenario.returns_y2
             (add_pipeline "a" Scenario.returns_y2
                (init (Scenario.pending_store "b" "j1") "7")) in
  ∃ w', @start Scenario.lib 1 w = Next w'
        ∧ "j1" ∈ Store.lrange "queue:b:processing" (redis w').
Proof.
  intros w.
  destruct (@clean_up_leaves_processing_queue Scenario.lib
              (pending_queues w) w
              (Scenario.at_try w) "b" "j1" Scenario.job_x1
              (Dumpable (JObject [("y", JInt 2)])) Scenario.returns_y2
              (redis (Scenario.at_try w)))
    as (w' & Hnext & Hstill & _).
  - apply dispatch_at_try. vm_compute; reflexivity.
  - discriminate.
  - reflexivity.
  - reflexivity.
  - vm_compute; reflexivity.
  - reflexivity.
  - exists w'. split; [exact (start_one_turn w w' Hnext) | exact Hstill].
Defined.

(** For the pipeline named concept-map the cleanup is complete. *)
Lemma cleaned_concept_map (j : string) (r : Redis) :
  (j ∉ Store.lrange "queue:concept-map:processing" (cleaned j r))
  ∧ Store.hget "last_updates" j (cleaned j r) = None
  ∧ Store.hget "locks" j (cleaned j r) = None
  ∧ Store.hget "jobs" j (cleaned j r) = None.
Proof.
  destruct (hget_cleaned j r) as (Hupdates & Hlocks & Hjobs & _).
  split; [apply lrange_processing_cleaned | done].
Qed.

(** ** The heartbeat thread *)

(** C2 does not hold of the code.  [status_updater] declares a parameter
    and [Thread] calls it with none: whatever the job id handed to
    [start_updater_thread], whatever the clock and the state of the worker,
    the thread ends at once on a TypeError and has written nothing. *)
Theorem updater_thread_writes_nothing (j : option string) (clock : list Z) (w : Worker) :
  start_updater_thread j clock w = (Raise (TypeError missing_self), w)
  ∧ spawn_updater clock w = (Raise (TypeError missing_self), w).
Proof. split; reflexivity. Qed.

(** X21.  The loop itself, had it been called: a lost lock ends it before
    any write, for good. *)
Lemma status_updater_lock_lost (key : option string) (now : Z) (clock : list Z)
    (w : Worker) (j owner : string) :
  is_exiting w = false →
  job_id w = Some j →
  Store.hget "locks" j (redis w) = Some owner →
  owner ≠ worker_id w →
  status_updater key (now :: clock) w = (Raise LockError, traced (Hget "locks" j) w).
Proof.
  intros Hexit Hj Hlock Hother. cbn [status_updater].
  unfold bind at 1. unfold gets at 1. rewrite Hexit.
  unfold bind at 1. rewrite (check_lock_held w j Hj), Hlock.
  by rewrite decide_True.
Qed.

(** The liveness record is written under the job id the thread was created
    with, which [start] reads before its loop has claimed any job. *)
Lemma status_updater_key (key : string) (now : Z) (w : Worker) :
  is_exiting w = false →
  job_id w = None →
  status_updater (Some key) [now] w
  = (Ok tt, traced (Hset "last_updates" key (pretty now))
              (with_redis (Store.hset "last_updates" key (pretty now)) w)).
Proof.
  intros Hexit Hj. cbn [status_updater].
  unfold bind at 1. unfold gets at 1. rewrite Hexit.
  unfold bind at 1. by rewrite (check_lock_idle w Hj).
Qed.

Lemma status_updater_no_key (now : Z) (clock : list Z) (w : Worker) :
  is_exiting w = false →
  job_id w = None →
  status_updater None (now :: clock) w
  = (Raise (DataError "'hset' with no key value pairs"), w).
Proof.
  intros Hexit Hj. cbn [status_updater].
  unfold bind at 1. unfold gets at 1. rewrite Hexit.
  unfold bind at 1. by rewrite (check_lock_idle w Hj).
Qed.

(** ** The log thread *)

Section LogThread.

Context `{PyLib}.

Lemma log_generator_exiting (stamps : list string) (w : Worker) :
  is_exiting w = true → log_generator stamps w = w.
Proof. intros Hexit. destruct stamps; cbn; [done | by rewrite Hexit]. Qed.

Lemma log_generator_empty (stamps : list string) (w : Worker) :
  log_queue w = [] → log_generator stamps w = w.
Proof.
  intros Hempty. induction stamps as [|stamp stamps IH]; cbn; [done|].
  destruct (is_exiting w); [done|].
  unfold log_turn. by rewrite Hempty.
Qed.

(** C9, as amended.  While the exit flag is not set, the log thread takes
    the messages from the head of the queue, one a turn, and appends their
    entries to the log stream in the order they were enqueued: after as
    many turns as [stamps] has elements, the stream has gained the entries
    of the first messages, in order, and the queue holds the others; with
    at least as many turns as messages, the queue is empty and every
    message is in the stream. *)
Theorem log_generator_drains (stamps : list string) (w : Worker) :
  is_exiting w = false →
  Store.lrange "log" (redis (log_generator stamps w))
  = Store.lrange "log" (redis w) ++ zip_with (log_entry w) stamps (log_queue w)
  ∧ log_queue (log_generator stamps w) = drop (length stamps) (log_queue w)
  ∧ ((length (log_queue w) ≤ length stamps)%nat
     → log_queue (log_generator stamps w) = []).
Proof.
  intros Hexit.
  assert (Hrun : Store.lrange "log" (redis (log_generator stamps w))
                 = Store.lrange "log" (redis w)
                   ++ zip_with (log_entry w) stamps (log_queue w)
                 ∧ log_queue (log_generator stamps w)
                   = drop (length stamps) (log_queue w)).
  { revert w Hexit. induction stamps as [|stamp stamps IH]; intros w Hexit.
    - cbn. by rewrite app_nil_r.
    - destruct (log_queue w) as [|message queue] eqn:Hqueue.
      + rewrite log_generator_empty by done. rewrite Hqueue. cbn.
        by rewrite app_nil_r.
      + cbn [log_generator]. rewrite Hexit.
        destruct (IH (log_turn stamp w)) as [Hlog Hrest].
        { unfold log_turn. by rewrite Hqueue. }
        rewrite Hlog, Hrest. unfold log_turn. rewrite Hqueue. cbn.
        split; [|done].
        rewrite lrange_rpush, <- app_assoc. done. }
  destruct Hrun as [Hlog Hrest]. repeat split; try done.
  intros Hlength. rewrite Hrest. by apply drop_ge.
Qed.

End LogThread.

Lemma log_generator_drains_witness :
  let w := with_log_queue ["a"; "b"; "c"] (init Store.empty "7") in
  let w' := @log_generator Scenario.lib ["t1"; "t2"; "t3"; "t4"] w in
  Store.lrange "log" (redis w')
  = [@log_entry Scenario.lib w "t1" "a"; @log_entry Scenario.lib w "t2" "b";
     @log_entry Scenario.lib w "t3" "c"]
  ∧ log_queue w' = [].
Proof.
  intros w w'.
  destruct (@log_generator_drains Scenario.lib ["t1"; "t2"; "t3"; "t4"] w eq_refl)
    as (Hlog & _ & Hempty).
  split; [exact Hlog | apply Hempty; cbn; lia].
Defined.

(** C9 as stated fails: three messages are on the queue when [stop] sets
    the exit flag; however many turns the log thread is given, none of them
    reaches the log stream. *)
Lemma log_generator_drops_after_stop :
  ¬ ∃ stamps,
      Store.lrange "log"
        (redis (@log_generator Scenario.lib stamps
                  (stop (with_log_queue ["a"; "b"; "c"] (init Store.empty "7")))))
      ≠ [].
Proof.
  intros [stamps Hlog]. apply Hlog.
  by rewrite log_generator_exiting.
Qed.


(** * Further properties of the worker *)

(** ** The registry of pipelines *)

Lemma dict_get_dict_set {V : Type} (key : string) (value : V) (d : list (string * V)) :
  dict_get key (dict_set key value d) = Some value.
Proof.
  induction d as [|[k v] d IH]; cbn.
  - by rewrite decide_True.
  - destruct (decide (k = key)) as [->|Hne]; cbn.
    + by rewrite decide_True.
    + by rewrite decide_False.
Qed.

Lemma dict_get_dict_set_ne {V : Type} (key key' : string) (value : V)
    (d : list (string * V)) :
  key ≠ key' → dict_get key' (dict_set key value d) = dict_get key' d.
Proof.
  intros Hne. induction d as [|[k v] d IH]; cbn.
  - by rewrite decide_False.
  - destruct (decide (k = key)) as [->|Hk]; cbn.
    + by rewrite !decide_False.
    + destruct (decide (k = key')); [done | apply IH].
Qed.

Lemma dict_set_keys_present {V : Type} (key : string) (value v0 : V)
    (d : list (string * V)) :
  dict_get key d = Some v0 → (dict_set key value d).*1 = d.*1.
Proof.
  induction d as [|[k v] d IH]; cbn; [done|].
  destruct (decide (k = key)) as [->|Hk]; cbn; [done|].
  intros Hd. by rewrite (IH Hd).
Qed.

Lemma dict_set_keys_absent {V : Type} (key : string) (value : V)
    (d : list (string * V)) :
  dict_get key d = None → (dict_set key value d).*1 = d.*1 ++ [key].
Proof.
  induction d as [|[k v] d IH]; cbn; [done|].
  destruct (decide (k = key)) as [->|Hk]; cbn; [done|].
  intros Hd. by rewrite (IH Hd).
Qed.

Lemma pending_queues_keys (w : Worker) :
  pending_queues w = (λ p, "queue:" +:+ p +:+ ":pending") <$> (pipelines w).*1.
Proof.
  unfold pending_queues. rewrite <- list_fmap_compose. done.
Qed.

(** X1.  After [add_pipeline pipeline function], looking [pipeline] up in
    the registry gives [function], whatever was registered under that name
    before, and every other name is looked up as before. *)
Theorem add_pipeline_lookup (pipeline : string) (function : handler) (w : Worker) :
  dict_get pipeline (pipelines (add_pipeline pipeline function w)) = Some function
  ∧ (∀ other, pipeline ≠ other →
       dict_get other (pipelines (add_pipeline pipeline function w))
       = dict_get other (pipelines w)).
Proof.
  split; [apply dict_get_dict_set|].
  intros other Hne. by apply dict_get_dict_set_ne.
Qed.

(** X2.  The pending queues that [start] hands to [brpop] follow the order
    of registration: registering a new name puts its queue last, and
    registering a name again (with another function) leaves the list of
    queues as it was. *)
Theorem add_pipeline_pending_queues (pipeline : string) (function : handler)
    (w : Worker) :
  (dict_get pipeline (pipelines w) = None →
     pending_queues (add_pipeline pipeline function w)
     = pending_queues w ++ ["queue:" +:+ pipeline +:+ ":pending"])
  ∧ (∀ old, dict_get pipeline (pipelines w) = Some old →
       pending_queues (add_pipeline pipeline function w) = pending_queues w).
Proof.
  rewrite !pending_queues_keys. unfold add_pipeline. cbn [pipelines with_pipelines].
  split.
  - intros Hnew. rewrite (dict_set_keys_absent _ _ _ Hnew). by rewrite fmap_app.
  - intros old Hold. by rewrite (dict_set_keys_present _ _ _ _ Hold).
Qed.

(** ** The pipeline read off a queue name *)

Lemma split_head_no_sep (sep : ascii) (s : string) :
  ∃ x rest, split sep s = x :: rest ∧ contains sep x = false.
Proof.
  induction s as [|c s (x & rest & Hsplit & Hx)]; cbn [split].
  - by exists "", [].
  - case_decide as Hc.
    + by exists "", (split sep s).
    + rewrite Hsplit. exists (String c x), rest. split; [done|].
      cbn [contains]. by rewrite decide_False.
Qed.

(** X3.  [start] reads the pipeline of a claimed job off the name of the
    pending queue, as the field after the first colon.  What it reads is the
    name the queue was built from exactly when that name has no colon. *)
Theorem pipeline_read_back_iff (p : string) :
  split ":" ("queue:" +:+ p +:+ ":pending") !! 1%nat = Some p
  ↔ contains ":" p = false.
Proof.
  split; [|apply pipeline_of_pending_queue].
  change ("queue:" +:+ p +:+ ":pending")
    with ("queue" +:+ String ":" (p +:+ ":pending")).
  rewrite split_no_sep by done.
  destruct (split_head_no_sep ":" (p +:+ ":pending")) as (x & rest & -> & Hx).
  cbn. by intros [= ->].
Qed.

(** ** Claiming a job *)

Lemma pop_right_none (l : list string) : Store.pop_right l = None ↔ l = [].
Proof.
  destruct l as [|x l]; cbn; [done|].
  by destruct (Store.pop_right l) as [[init y]|].
Qed.

Lemma pop_right_some (l init : list string) (v : string) :
  Store.pop_right l = Some (init, v) ↔ l = init ++ [v].
Proof.
  revert init. induction l as [|x l IH]; intros init; cbn.
  - split; [done|]. by destruct init.
  - destruct (Store.pop_right l) as [[init' y]|] eqn:Hpop.
    + split.
      * intros [= <- <-]. cbn. f_equal. by apply IH.
      * destruct init as [|z init]; cbn.
        { intros [= -> ->]. by cbn in Hpop. }
        intros [= -> Hl]. apply IH in Hl. by injection Hl as -> ->.
    + apply pop_right_none in Hpop as ->. split.
      * by intros [= <- <-].
      * destruct init as [|z init]; cbn; [by intros [= ->]|].
        intros [= _ Hnil]. by destruct init.
Qed.

Lemma brpop_cons (k : string) (keys : list string) (r : Redis) :
  Store.brpop (k :: keys) r
  = match Store.pop_right (Store.lrange k r) with
    | Some (init, v) => Some (k, v, Store.set_list k init r)
    | None => Store.brpop keys r
    end.
Proof. reflexivity. Qed.

Lemma brpop_none (keys : list string) (r : Redis) :
  Store.brpop keys r = None ↔ ∀ key, key ∈ keys → Store.lrange key r = [].
Proof.
  induction keys as [|k keys IH]; [|rewrite brpop_cons].
  - change (Store.brpop [] r) with (@None (string * string * Redis)). split; [|done]. intros _ key Hkey. by apply elem_of_nil in Hkey.
  - destruct (Store.pop_right (Store.lrange k r)) as [[init v]|] eqn:Hpop.
    + split; [done|]. intros Hempty.
      rewrite (Hempty k) in Hpop by apply list_elem_of_here. done.
    + apply pop_right_none in Hpop. rewrite IH. split.
      * intros Hempty key [->|Hkey]%elem_of_cons; [done | by apply Hempty].
      * intros Hempty key Hkey. apply Hempty. by apply list_elem_of_further.
Qed.

Lemma brpop_some (keys : list string) (r r' : Redis) (k v : string) :
  Store.brpop keys r = Some (k, v, r') →
  k ∈ keys
  ∧ Store.lrange k r = Store.lrange k r' ++ [v]
  ∧ r' = Store.set_list k (Store.lrange k r') r.
Proof.
  induction keys as [|k0 keys IH]; [done | rewrite brpop_cons].
  destruct (Store.pop_right (Store.lrange k0 r)) as [[init v0]|] eqn:Hpop.
  - intros [= <- <- <-]. apply pop_right_some in Hpop.
    rewrite lrange_set_list. split; [apply list_elem_of_here | done].
  - intros Hrest. destruct (IH Hrest) as (Hin & Hlist & Hstore).
    split; [by apply list_elem_of_further | done].
Qed.

Section Claiming.

Context `{PyLib}.

(** X4.  A turn waits exactly when some pipeline is registered and the
    pending queue of every one of them is empty; it then has changed
    nothing. *)
Theorem loop_body_waits_iff (queues : list string) (w : Worker) :
  loop_body queues w = Waiting
  ↔ queues ≠ [] ∧ ∀ queue, queue ∈ queues → Store.lrange queue (redis w) = [].
Proof.
  unfold loop_body. destruct queues as [|queue queues].
  - split; [done | by intros [Hne _]].
  - rewrite <- brpop_none.
    destruct (Store.brpop (queue :: queues) (redis w)) as [[[from_queue j] store]|].
    + split; [|by intros [_ ?]].
      unfold finish. by destruct (iteration _ _ _) as [[[]|e] w'].
    + done.
Qed.

(** X5.  When a turn reaches [try:] with job [j] of [pipeline], this is all
    it has done to the store: [j] was taken from the tail of one of the
    pending queues, whose name has [pipeline] as its second field, and put
    at the head of the processing queue of [pipeline]; the lock record of
    [j] is now this worker's id, whoever owned it before; every other record
    of the tables is as it was.  [j] is the current job. *)
Theorem dispatch_moves_job (queues : list string) (w w1 : Worker) (pipeline j : string)
    (job : Json) :
  dispatch queues w = Some (pipeline, j, job, w1) →
  ∃ from_queue store,
    from_queue ∈ queues
    ∧ split ":" from_queue !! 1%nat = Some pipeline
    ∧ Store.lrange from_queue (redis w) = Store.lrange from_queue store ++ [j]
    ∧ (∀ key, key ≠ from_queue → Store.lrange key store = Store.lrange key (redis w))
    ∧ Store.lrange ("queue:" +:+ pipeline +:+ ":processing") (redis w1)
      = j :: Store.lrange ("queue:" +:+ pipeline +:+ ":processing") store
    ∧ (∀ key, key ≠ "queue:" +:+ pipeline +:+ ":processing" →
         Store.lrange key (redis w1) = Store.lrange key store)
    ∧ Store.hget "locks" j (redis w1) = Some (worker_id w)
    ∧ (∀ name key, ("locks", j) ≠ (name, key) →
         Store.hget name key (redis w1) = Store.hget name key (redis w))
    ∧ job_id w1 = Some j.
Proof.
  intros Hdispatch.
  destruct (dispatch_inv _ _ _ _ _ _ Hdispatch)
    as (from_queue & store & text & Hpop & Hpipeline & _ & _ & -> & _ & _ & Hj & _).
  destruct (brpop_some _ _ _ _ _ Hpop) as (Hin & Hlist & Hstore).
  exists from_queue, store. repeat split; try done.
  - intros key Hkey. rewrite Hstore. by apply lrange_set_list_ne.
  - change (Store.lrange ?k (Store.hset _ _ _ ?r)) with (Store.lrange k r).
    apply lrange_lpush.
  - intros key Hkey.
    change (Store.lrange ?k (Store.hset _ _ _ ?r)) with (Store.lrange k r).
    by apply lrange_set_list_ne.
  - apply hget_hset.
  - intros name key Hne. rewrite hget_hset_ne by done.
    change (Store.hget ?n ?k (Store.lpush _ _ ?r)) with (Store.hget n k r).
    rewrite Hstore. done.
Qed.

End Claiming.

(** ** Turns that end before [try:] *)

Section BeforeTry.

Context `{PyLib}.

Lemma loop_body_popped (queues : list string) (w : Worker)
    (from_queue j pipeline : string) (store : Redis) :
  Store.brpop queues (redis w) = Some (from_queue, j, store) →
  split ":" from_queue !! 1%nat = Some pipeline →
  loop_body queues w
  = finish
      ((job <- fetch_and_lock j;; run_job pipeline job)
         {| redis := Store.lpush ("queue:" +:+ pipeline +:+ ":processing") j store;
            worker_id := worker_id w;
            log_queue := log_queue w
                         ++ ["CourseMapper Worker: Received concept-map job for "
                             +:+ j +:+ "..."];
            is_exiting := is_exiting w; job_id := Some j; pipelines := pipelines w;
            trace := (trace w ++ [Brpop queues 0 from_queue j])
                     ++ [SetJobId (Some j);
                         Lpush ("queue:" +:+ pipeline +:+ ":processing") j;
                         Put ("CourseMapper Worker: Received concept-map job for "
                              +:+ j +:+ "...")] |}).
Proof.
  intros Hpop Hpipeline. unfold loop_body.
  destruct queues as [|queue queues]; [done|].
  rewrite Hpop. unfold iteration. unfold bind at 1.
  by rewrite (receive_ok _ _ _ _ Hpipeline).
Qed.

(** X6.  A job id is popped whose arguments are not in the jobs table.  The
    assertion on the arguments fails before [try:], so the exception leaves
    [start]: by then the id has been taken off the pending queue, made the
    current job and pushed on the processing queue, and nothing else was
    done (no lock written, no result pushed, no cleanup). *)
Theorem missing_arguments_leave_start (queues : list string) (w : Worker)
    (from_queue j pipeline : string) (store : Redis) :
  Store.brpop queues (redis w) = Some (from_queue, j, store) →
  split ":" from_queue !! 1%nat = Some pipeline →
  Store.hget "jobs" j store = None →
  ∃ w', loop_body queues w = Leaves AssertionError w'
        ∧ redis w' = Store.lpush ("queue:" +:+ pipeline +:+ ":processing") j store
        ∧ job_id w' = Some j
        ∧ trace w'
          = trace w
            ++ [Brpop queues 0 from_queue j; SetJobId (Some j);
                Lpush ("queue:" +:+ pipeline +:+ ":processing") j;
                Put ("CourseMapper Worker: Received concept-map job for "
                     +:+ j +:+ "...");
                Hget "jobs" j].
Proof.
  intros Hpop Hpipeline Hjobs.
  rewrite (loop_body_popped _ _ _ _ _ _ Hpop Hpipeline).
  unfold bind at 1. unfold fetch_and_lock. run.
  change (Store.hget ?n ?k (Store.lpush _ _ ?r)) with (Store.hget n k r).
  rewrite Hjobs. cbn. eexists. split; [reflexivity|]. cbn.
  repeat split. by rewrite <- !app_assoc.
Qed.

(** X7.  A job id is popped whose arguments [json.loads] refuses with the
    exception [e].  [e] leaves [start], raised before [try:] and before the
    lock is written: the store holds the id on the processing queue and no
    lock, result or cleanup was written for it. *)
Theorem unparsable_arguments_leave_start (queues : list string) (w : Worker)
    (from_queue j pipeline text : string) (store : Redis) (e : exn) :
  Store.brpop queues (redis w) = Some (from_queue, j, store) →
  split ":" from_queue !! 1%nat = Some pipeline →
  Store.hget "jobs" j store = Some text →
  json_loads text = Raise e →
  ∃ w', loop_body queues w = Leaves e w'
        ∧ redis w' = Store.lpush ("queue:" +:+ pipeline +:+ ":processing") j store
        ∧ job_id w' = Some j
        ∧ trace w'
          = trace w
            ++ [Brpop queues 0 from_queue j; SetJobId (Some j);
                Lpush ("queue:" +:+ pipeline +:+ ":processing") j;
                Put ("CourseMapper Worker: Received concept-map job for "
                     +:+ j +:+ "...");
                Hget "jobs" j].
Proof.
  intros Hpop Hpipeline Hjobs Hparse.
  rewrite (loop_body_popped _ _ _ _ _ _ Hpop Hpipeline).
  unfold bind at 1. unfold fetch_and_lock. run.
  change (Store.hget ?n ?k (Store.lpush _ _ ?r)) with (Store.hget n k r).
  rewrite Hjobs, Hparse. cbn. eexists. split; [reflexivity|]. cbn.
  repeat split. by rewrite <- !app_assoc.
Qed.

End BeforeTry.

(** ** Other ways through [try:] *)

Section MoreEndings.

Context `{PyLib}.

Local Arguments check_lock : simpl never.
Local Arguments clean_up : simpl never.


(** X8.  The pipeline function of a dispatched job raises
    KeyboardInterrupt.  The worker calls [sys.exit()]: SystemExit leaves
    [start], and after the call nothing was pushed, logged or cleaned up;
    the job is still the current one. *)
Theorem interrupted_turn (queues : list string) (w w1 : Worker) (pipeline j : string)
    (job : Json) (function : handler) (store : Redis) :
  dispatch queues w = Some (pipeline, j, job, w1) →
  dict_get pipeline (pipelines w) = Some function →
  function job (redis w1) = (Raise KeyboardInterrupt, store) →
  ∃ w', loop_body queues w = Leaves SystemExit w'
        ∧ redis w' = store
        ∧ trace w' = trace w1 ++ [Call pipeline job]
        ∧ log_queue w' = log_queue w1
        ∧ job_id w' = Some j.
Proof.
  intros Hdispatch Hfunction Hcall.
  destruct (dispatch_inv _ _ _ _ _ _ Hdispatch)
    as (_ & _ & _ & _ & _ & _ & _ & _ & _ & _ & Hj & Hid & Hpipelines & _).
  rewrite <- Hpipelines in Hfunction.
  rewrite (dispatch_loop_body _ _ _ _ _ _ Hdispatch).
  rewrite (run_job_raised _ _ _ _ _ _ Hfunction Hcall).
  eexists. split; [reflexivity|]. by cbn.
Qed.

(** X9.  The pipeline function of a dispatched job raises an exception [e]
    that is neither an Exception nor KeyboardInterrupt.  No clause catches
    it: [e] itself leaves [start], and after the call nothing was pushed,
    logged or cleaned up. *)
Theorem uncaught_turn (queues : list string) (w w1 : Worker) (pipeline j : string)
    (job : Json) (function : handler) (e : exn) (store : Redis) :
  dispatch queues w = Some (pipeline, j, job, w1) →
  dict_get pipeline (pipelines w) = Some function →
  function job (redis w1) = (Raise e, store) →
  is_Exception e = false →
  e ≠ KeyboardInterrupt →
  ∃ w', loop_body queues w = Leaves e w'
        ∧ redis w' = store
        ∧ trace w' = trace w1 ++ [Call pipeline job]
        ∧ log_queue w' = log_queue w1
        ∧ job_id w' = Some j.
Proof.
  intros Hdispatch Hfunction Hcall Hclass Hother.
  destruct (dispatch_inv _ _ _ _ _ _ Hdispatch)
    as (_ & _ & _ & _ & _ & _ & _ & _ & _ & _ & Hj & Hid & Hpipelines & _).
  rewrite <- Hpipelines in Hfunction.
  rewrite (dispatch_loop_body _ _ _ _ _ _ Hdispatch).
  rewrite (run_job_raised _ _ _ _ _ _ Hfunction Hcall).
  destruct e; try done.
  all: eexists; split; [reflexivity|]; by cbn.
Qed.

(** X10.  The pipeline function of a dispatched job itself raises
    LockError.  The clause for a lost lock catches it like one raised by the
    lock check: the turn comes back to the top of the loop, the lock record
    was not read, nothing was pushed or cleaned up, and the lost-lock
    message is on the log queue. *)
Theorem handler_lock_error_turn (queues : list string) (w w1 : Worker)
    (pipeline j : string) (job : Json) (function : handler) (store : Redis) :
  dispatch queues w = Some (pipeline, j, job, w1) →
  dict_get pipeline (pipelines w) = Some function →
  function job (redis w1) = (Raise LockError, store) →
  ∃ w', loop_body queues w = Next w'
        ∧ redis w' = store
        ∧ trace w' = trace w1 ++ [Call pipeline job; Put (lost_lock_message j)]
        ∧ log_queue w' = log_queue w1 ++ [lost_lock_message j]
        ∧ job_id w' = Some j.
Proof.
  intros Hdispatch Hfunction Hcall.
  destruct (dispatch_inv _ _ _ _ _ _ Hdispatch)
    as (_ & _ & _ & _ & _ & _ & _ & _ & _ & _ & Hj & Hid & Hpipelines & _).
  rewrite <- Hpipelines in Hfunction.
  rewrite (dispatch_loop_body _ _ _ _ _ _ Hdispatch).
  rewrite (run_job_raised _ _ _ _ _ _ Hfunction Hcall).
  unfold except_clauses. run. rewrite Hj.
  eexists. split; [reflexivity|]. cbn. repeat split; try done.
  by rewrite <- !app_assoc.
Qed.


(** X11.  A job is dispatched for a pipeline name that is not in the
    registry (the name read off the queue is not the registered one).  No
    function is called; the KeyError of the lookup is reported like a
    failure of the job: one error record whose message is [repr] of the
    name, the two log messages, the cleanup, and the loop goes on. *)
Theorem unknown_pipeline_turn (queues : list string) (w w1 : Worker)
    (pipeline j : string) (job : Json) :
  dispatch queues w = Some (pipeline, j, job, w1) →
  dict_get pipeline (pipelines w) = None →
  ∃ w', loop_body queues w = Next w'
        ∧ trace w'
          = trace w1
            ++ [Rpush "queue:done"
                  (json_dumps (JObject [("job_id", JString j);
                                        ("error", JString (repr_str pipeline))]));
                Put (error_message pipeline j);
                Put (format_exc (KeyError pipeline))]
            ++ clean_up_events j
        ∧ Store.lrange "queue:done" (redis w')
          = Store.lrange "queue:done" (redis w1)
            ++ [json_dumps (JObject [("job_id", JString j);
                                     ("error", JString (repr_str pipeline))])]
        ∧ job_id w' = None.
Proof.
  intros Hdispatch Hfunction.
  destruct (dispatch_inv _ _ _ _ _ _ Hdispatch)
    as (_ & _ & _ & _ & _ & _ & _ & _ & _ & _ & Hj & Hid & Hpipelines & _).
  rewrite <- Hpipelines in Hfunction.
  rewrite (dispatch_loop_body _ _ _ _ _ _ Hdispatch).
  unfold run_job, try_except, try_block, call_pipeline.
  unfold bind at 1. rewrite Hfunction.
  rewrite (except_clauses_error _ _ j) by done.
  eexists. split; [reflexivity|]. cbn. repeat split.
  rewrite lrange_cleaned_ne by done. apply lrange_rpush.
Qed.

(** X12.  The pipeline function of a dispatched job returns, and the lock
    record of the job is gone (deleted while the function ran).  The lock
    check fails on its assertion inside [try:], and the last clause treats
    that like a failure of the job: one error record with the empty message
    of the AssertionError is pushed instead of the result, then the cleanup
    runs and the loop goes on. *)
Theorem lock_deleted_turn (queues : list string) (w w1 : Worker) (pipeline j : string)
    (job : Json) (result : PyObj) (function : handler) (store : Redis) :
  dispatch queues w = Some (pipeline, j, job, w1) →
  dict_get pipeline (pipelines w) = Some function →
  function job (redis w1) = (Ok result, store) →
  Store.hget "locks" j store = None →
  ∃ w', loop_body queues w = Next w'
        ∧ trace w'
          = trace w1
            ++ [Call pipeline job; Hget "locks" j;
                Rpush "queue:done"
                  (json_dumps (JObject [("job_id", JString j); ("error", JString "")]));
                Put (error_message pipeline j);
                Put (format_exc AssertionError)]
            ++ clean_up_events j
        ∧ Store.lrange "queue:done" (redis w')
          = Store.lrange "queue:done" store
            ++ [json_dumps (JObject [("job_id", JString j); ("error", JString "")])]
        ∧ job_id w' = None.
Proof.
  intros Hdispatch Hfunction Hcall Hlock.
  destruct (dispatch_inv _ _ _ _ _ _ Hdispatch)
    as (_ & _ & _ & _ & _ & _ & _ & _ & _ & _ & Hj & Hid & Hpipelines & _).
  rewrite <- Hpipelines in Hfunction.
  rewrite (dispatch_loop_body _ _ _ _ _ _ Hdispatch).
  unfold run_job, try_except, try_block, call_pipeline.
  unfold bind at 1. rewrite Hfunction, Hcall.
  unfold bind at 1. rewrite (check_lock_held _ j) by done.
  cbn. rewrite Hlock.
  rewrite (except_clauses_error _ _ j) by done.
  eexists. split; [reflexivity|]. cbn. repeat split.
  - by rewrite <- !app_assoc.
  - rewrite lrange_cleaned_ne by done. apply lrange_rpush.
Qed.

(** X13.  The lock written at dispatch is the lock read after the call: when
    the pipeline function of a dispatched job returns a value that
    [json.dumps] serialises and the lock record of the job is what it was
    when the call started, the check passes and the result is reported,
    whoever owned the lock before the turn. *)
Theorem undisturbed_turn_reports (queues : list string) (w w1 : Worker)
    (pipeline j : string) (job result : Json) (function : handler) (store : Redis) :
  dispatch queues w = Some (pipeline, j, job, w1) →
  dict_get pipeline (pipelines w) = Some function →
  function job (redis w1) = (Ok (Dumpable result), store) →
  Store.hget "locks" j store = Store.hget "locks" j (redis w1) →
  ∃ w', loop_body queues w = Next w'
        ∧ Store.lrange "queue:done" (redis w')
          = Store.lrange "queue:done" store
            ++ [json_dumps (JObject [("job_id", JString j); ("result", result)])]
        ∧ job_id w' = None.
Proof.
  intros Hdispatch Hfunction Hcall Hsame.
  destruct (dispatch_inv _ _ _ _ _ _ Hdispatch)
    as (from_queue & store0 & text & _ & _ & _ & _ & Hredis & _ & _
        & Hj & Hid & Hpipelines & _).
  rewrite <- Hpipelines in Hfunction.
  rewrite Hredis, hget_hset, <- Hid in Hsame.
  rewrite (dispatch_loop_body _ _ _ _ _ _ Hdispatch).
  rewrite (run_job_reported _ _ _ _ _ _ _ Hj Hfunction Hcall Hsame).
  eexists. split; [reflexivity|]. cbn. split; [|done].
  rewrite lrange_cleaned_ne by done. apply lrange_rpush.
Qed.

(** X14.  A job of the pipeline named concept-map that runs to the success
    path leaves nothing behind: its id is on the processing queue no more,
    however many times it stood there, and its liveness, lock, argument and
    file records are absent. *)
Theorem concept_map_turn_cleans (queues : list string) (w w1 : Worker) (j : string)
    (job result : Json) (function : handler) (store : Redis) :
  dispatch queues w = Some ("concept-map", j, job, w1) →
  dict_get "concept-map" (pipelines w) = Some function →
  function job (redis w1) = (Ok (Dumpable result), store) →
  Store.hget "locks" j store = Some (worker_id w) →
  ∃ w', loop_body queues w = Next w'
        ∧ (j ∉ Store.lrange "queue:concept-map:processing" (redis w'))
        ∧ Store.hget "last_updates" j (redis w') = None
        ∧ Store.hget "locks" j (redis w') = None
        ∧ Store.hget "jobs" j (redis w') = None
        ∧ Store.hget "files" j (redis w') = None.
Proof.
  intros Hdispatch Hfunction Hcall Hlock.
  destruct (dispatch_inv _ _ _ _ _ _ Hdispatch)
    as (_ & _ & _ & _ & _ & _ & _ & _ & _ & _ & Hj & Hid & Hpipelines & _).
  rewrite <- Hpipelines in Hfunction. rewrite <- Hid in Hlock.
  rewrite (dispatch_loop_body _ _ _ _ _ _ Hdispatch).
  rewrite (run_job_reported _ _ _ _ _ _ _ Hj Hfunction Hcall Hlock).
  eexists. split; [reflexivity|]. cbn [redis].
  split; [apply lrange_processing_cleaned | apply hget_cleaned].
Qed.

End MoreEndings.

(** ** What a turn leaves alone *)

Lemma keeps_refl (w : Worker) : keeps w w.
Proof. repeat split. exists []. by rewrite app_nil_r. Qed.

Lemma keeps_same (w w' : Worker) :
  worker_id w' = worker_id w → pipelines w' = pipelines w →
  is_exiting w' = is_exiting w → log_queue w' = log_queue w →
  keeps w w'.
Proof. intros ? ? ? Hq. repeat split; try done. exists []. by rewrite app_nil_r. Qed.

Lemma keeps_trans (w1 w2 w3 : Worker) : keeps w1 w2 → keeps w2 w3 → keeps w1 w3.
Proof.
  intros (Hid & Hp & He & msgs & Hq) (Hid' & Hp' & He' & msgs' & Hq').
  repeat split; try congruence.
  exists (msgs ++ msgs'). by rewrite Hq', Hq, app_assoc.
Qed.

Lemma Keeps_ret {A : Type} (a : A) : Keeps (ret a).
Proof. intros w r w' [= _ <-]. apply keeps_refl. Qed.

Lemma Keeps_raise {A : Type} (e : exn) : Keeps (@raise A e).
Proof. intros w r w' [= _ <-]. apply keeps_refl. Qed.

Lemma Keeps_gets {A : Type} (f : Worker → A) : Keeps (gets f).
Proof. intros w r w' [= _ <-]. apply keeps_refl. Qed.

Lemma Keeps_bind {A B : Type} (m : M A) (k : A → M B) :
  Keeps m → (∀ a, Keeps (k a)) → Keeps (bind m k).
Proof.
  intros Hm Hk w r w'. unfold bind.
  destruct (m w) as [[a|e] w1] eqn:Hrun.
  - intros Hrest. eapply keeps_trans; [by eapply Hm | by eapply Hk].
  - intros [= _ <-]. by eapply Hm.
Qed.

Lemma Keeps_try_except {A : Type} (m : M A) (handle : exn → M A) :
  Keeps m → (∀ e, Keeps (handle e)) → Keeps (try_except m handle).
Proof.
  intros Hm Hhandle w r w'. unfold try_except.
  destruct (m w) as [[a|e] w1] eqn:Hrun.
  - intros [= _ <-]. by eapply Hm.
  - intros Hrest. eapply keeps_trans; [by eapply Hm | by eapply Hhandle].
Qed.

Lemma Keeps_store {A : Type} (a : A) (e : event) (f : Redis → Redis) :
  Keeps (λ w, (Ok a, traced e (with_redis f w))).
Proof. intros w r w' [= _ <-]. by apply keeps_same. Qed.

Lemma Keeps_redis_hget (name key : string) : Keeps (redis_hget name key).
Proof. intros w r w' [= _ <-]. by apply keeps_same. Qed.

Lemma Keeps_log_queue_put (msg : string) : Keeps (log_queue_put msg).
Proof. intros w r w' [= _ <-]. repeat split. by exists [msg]. Qed.

Lemma Keeps_set_job_id (v : option string) : Keeps (set_job_id v).
Proof. intros w r w' [= _ <-]. by apply keeps_same. Qed.

Create HintDb keeps.
#[local] Hint Resolve Keeps_ret Keeps_raise Keeps_gets Keeps_redis_hget
  Keeps_log_queue_put Keeps_set_job_id : keeps.
#[local] Hint Extern 1 (Keeps (redis_lpush _ _)) => apply Keeps_store : keeps.
#[local] Hint Extern 1 (Keeps (redis_rpush _ _)) => apply Keeps_store : keeps.
#[local] Hint Extern 1 (Keeps (redis_lrem _ _ _)) => apply Keeps_store : keeps.
#[local] Hint Extern 1 (Keeps (redis_hset _ _ _)) => apply Keeps_store : keeps.
#[local] Hint Extern 1 (Keeps (redis_hdel _ _)) => apply Keeps_store : keeps.
#[local] Hint Extern 1 (Keeps (send_result _)) => apply Keeps_store : keeps.

(** Goes through the statements of a function, one [bind] at a time. *)
Ltac keeps_steps :=
  repeat first
    [ solve [auto with keeps]
    | apply Keeps_bind; [|intros ?]
    | apply Keeps_try_except; [|intros ?]
    | match goal with
      | |- Keeps (match ?x with _ => _ end) => destruct x
      | |- Keeps (if ?x then _ else _) => destruct x
      end ].

Lemma Keeps_check_lock : Keeps check_lock.
Proof. unfold check_lock. keeps_steps. Qed.

Lemma Keeps_clean_up : Keeps clean_up.
Proof. unfold clean_up. keeps_steps. Qed.

#[local] Hint Resolve Keeps_check_lock Keeps_clean_up : keeps.

Section Frame.

Context `{PyLib}.

Lemma Keeps_call_pipeline (pipeline : string) (job : Json) :
  Keeps (call_pipeline pipeline job).
Proof.
  intros w r w'. unfold call_pipeline.
  destruct (dict_get pipeline (pipelines w)) as [function|].
  - destruct (function job (redis w)) as [out store].
    intros [= _ <-]. by apply keeps_same.
  - intros [= _ <-]. apply keeps_refl.
Qed.

Lemma Keeps_run_job (pipeline : string) (job : Json) : Keeps (run_job pipeline job).
Proof.
  pose proof Keeps_call_pipeline.
  unfold run_job, try_block, except_clauses, dumps_result. keeps_steps.
Qed.

Lemma Keeps_iteration (from_queue j : string) : Keeps (iteration from_queue j).
Proof.
  pose proof Keeps_run_job.
  unfold iteration, receive, fetch_and_lock. keeps_steps.
Qed.

(** X15.  Whatever way a turn ends, it has not changed the worker's
    identity, its registry of pipelines or its exit flag, and it has taken
    nothing off the log queue: the queue is what it was, with the messages
    of the turn after it. *)
Theorem turn_keeps_worker (queues : list string) (w : Worker) :
  match loop_body queues w with
  | Waiting => True
  | Next w' | Leaves _ w' =>
      worker_id w' = worker_id w
      ∧ pipelines w' = pipelines w
      ∧ is_exiting w' = is_exiting w
      ∧ ∃ msgs, log_queue w' = log_queue w ++ msgs
  end.
Proof.
  unfold loop_body. destruct queues as [|queue queues]; [apply keeps_refl|].
  destruct (Store.brpop (queue :: queues) (redis w)) as [[[from_queue j] store]|];
    [|done].
  destruct (iteration from_queue j _) as [[[]|e] w'] eqn:Hrun.
  all: apply Keeps_iteration in Hrun; cbn [finish].
  all: eapply keeps_trans; [|exact Hrun]; by apply keeps_same.
Qed.

End Frame.

(** ** What cleanup leaves alone *)

(** X16.  Cleanup for job [j] touches the records of [j] only: every record
    of every table kept under another id is as it was, every list other
    than queue:concept-map:processing is as it was, and that list has lost
    the occurrences of [j] and kept its other elements in their order. *)
Theorem clean_up_touches_one_job (w : Worker) (j : string) :
  job_id w = Some j →
  (∀ name key, key ≠ j →
     Store.hget name key (redis (clean_up w).2) = Store.hget name key (redis w))
  ∧ (∀ queue, queue ≠ "queue:concept-map:processing" →
       Store.lrange queue (redis (clean_up w).2) = Store.lrange queue (redis w))
  ∧ Store.lrange "queue:concept-map:processing" (redis (clean_up w).2)
    = filter (λ x, x ≠ j) (Store.lrange "queue:concept-map:processing" (redis w)).
Proof.
  intros Hj. rewrite (clean_up_held w j Hj). cbn [snd redis]. unfold cleaned.
  split; [|split].
  - intros name key Hkey.
    rewrite !hget_hdel_ne by congruence. done.
  - intros queue Hqueue. by apply lrange_lrem_ne.
  - change (Store.lrange ?k (Store.hdel _ _ (Store.hdel _ _ (Store.hdel _ _
              (Store.hdel _ _ ?r))))) with (Store.lrange k r).
    rewrite lrange_lrem. unfold Store.lrem_list. by rewrite decide_True.
Qed.

(** X17.  Once cleanup has run for job [j], the file of [j] cannot be read
    any more: [get_file] fails on its assertion, having only read the files
    table. *)
Theorem get_file_after_clean_up (w : Worker) (j : string) :
  job_id w = Some j →
  get_file j (clean_up w).2
  = (Raise AssertionError, traced (Hget "files" j) (clean_up w).2).
Proof.
  intros Hj. rewrite (clean_up_held w j Hj). cbn [snd].
  unfold get_file. run.
  by destruct (hget_cleaned j (redis w)) as (_ & _ & _ & ->).
Qed.

(** ** The background loops *)

Section Loops.

Context `{PyLib}.

(** X18.  After [stop], neither background loop does anything more: however
    many turns they are given, the log loop appends nothing and takes
    nothing off the queue, and the heartbeat loop returns without reading
    the lock or writing the liveness table. *)
Theorem stop_ends_background_loops (w : Worker) (stamps : list string)
    (key : option string) (clock : list Z) :
  log_generator stamps (stop w) = stop w
  ∧ status_updater key clock (stop w) = (Ok tt, stop w).
Proof.
  split; [by apply log_generator_exiting|].
  by destruct clock.
Qed.

(** Running the log loop for the turns of [stamps1] and then for those of
    [stamps2] is running it for the turns of both in a row. *)
Lemma log_generator_app (stamps1 stamps2 : list string) (w : Worker) :
  log_generator (stamps1 ++ stamps2) w
  = log_generator stamps2 (log_generator stamps1 w).
Proof.
  revert w. induction stamps1 as [|stamp stamps1 IH]; intros w; cbn; [done|].
  destruct (is_exiting w) eqn:Hexit; [|apply IH].
  by rewrite log_generator_exiting.
Qed.

(** X19.  The log loop changes nothing but the log: it leaves the current
    job, the worker's identity, the exit flag, the registry, every table
    and every list other than the log stream as they were. *)
Theorem log_generator_touches_log_only (stamps : list string) (w : Worker) :
  job_id (log_generator stamps w) = job_id w
  ∧ worker_id (log_generator stamps w) = worker_id w
  ∧ is_exiting (log_generator stamps w) = is_exiting w
  ∧ pipelines (log_generator stamps w) = pipelines w
  ∧ hashes (redis (log_generator stamps w)) = hashes (redis w)
  ∧ (∀ queue, queue ≠ "log" →
       Store.lrange queue (redis (log_generator stamps w))
       = Store.lrange queue (redis w)).
Proof.
  assert (Hturn : ∀ stamp w,
            job_id (log_turn stamp w) = job_id w
            ∧ worker_id (log_turn stamp w) = worker_id w
            ∧ is_exiting (log_turn stamp w) = is_exiting w
            ∧ pipelines (log_turn stamp w) = pipelines w
            ∧ hashes (redis (log_turn stamp w)) = hashes (redis w)
            ∧ (∀ queue, queue ≠ "log" →
                 Store.lrange queue (redis (log_turn stamp w))
                 = Store.lrange queue (redis w))).
  { intros stamp w0. unfold log_turn.
    destruct (log_queue w0) as [|message queue]; [by repeat split|].
    cbn. repeat split. intros queue' Hqueue. by apply lrange_set_list_ne. }
  revert w. induction stamps as [|stamp stamps IH]; intros w; cbn [log_generator].
  - by repeat split.
  - destruct (is_exiting w) eqn:Hexit; [by repeat split|].
    destruct (IH (log_turn stamp w)) as (-> & -> & -> & -> & -> & Hlists).
    destruct (Hturn stamp w) as (-> & -> & -> & -> & -> & Hlists').
    repeat split; try done.
    intros queue Hqueue. by rewrite Hlists, Hlists'.
Qed.

End Loops.

Lemma status_updater_turn (key : string) (now : Z) (clock : list Z) (w : Worker) :
  is_exiting w = false →
  (∀ j, job_id w = Some j → Store.hget "locks" j (redis w) = Some (worker_id w)) →
  ∃ w1, status_updater (Some key) (now :: clock) w
        = status_updater (Some key) clock w1
        ∧ redis w1 = Store.hset "last_updates" key (pretty now) (redis w)
        ∧ is_exiting w1 = is_exiting w
        ∧ job_id w1 = job_id w
        ∧ worker_id w1 = worker_id w.
Proof.
  intros Hexit Hlock. cbn [status_updater].
  unfold bind at 1. unfold gets at 1. rewrite Hexit.
  unfold bind at 1.
  destruct (job_id w) as [j|] eqn:Hj.
  - rewrite (check_lock_held w j Hj), (Hlock j eq_refl).
    rewrite decide_False by (intros Hne; by apply Hne).
    eexists. split; [reflexivity|]. by cbn.
  - rewrite (check_lock_idle w Hj).
    eexists. split; [reflexivity|]. by cbn.
Qed.

(** X20.  The heartbeat loop writes under the job id it was created with,
    not under the current job of the worker.  While the exit flag is not
    set and the lock of the current job (if any) is the worker's, after the
    turns of [clock] the liveness record of that id holds the last time
    read, and no other record and no list of the store has changed. *)
Theorem status_updater_beats (key : string) (clock : list Z) (now : Z) (w : Worker) :
  is_exiting w = false →
  (∀ j, job_id w = Some j → Store.hget "locks" j (redis w) = Some (worker_id w)) →
  last clock = Some now →
  ∃ w', status_updater (Some key) clock w = (Ok tt, w')
        ∧ Store.hget "last_updates" key (redis w') = Some (pretty now)
        ∧ (∀ name k, ("last_updates", key) ≠ (name, k) →
             Store.hget name k (redis w') = Store.hget name k (redis w))
        ∧ lists (redis w') = lists (redis w)
        ∧ job_id w' = job_id w.
Proof.
  revert w. induction clock as [|t clock IH]; intros w Hexit Hlock Hlast; [done|].
  destruct (status_updater_turn key t clock w Hexit Hlock)
    as (w1 & -> & Hredis & Hexit1 & Hj1 & Hid1).
  destruct clock as [|t' clock'].
  - injection Hlast as ->. exists w1. cbn [status_updater].
    rewrite Hredis, Hj1. repeat split.
    + apply hget_hset.
    + intros name k Hne. by apply hget_hset_ne.
  - destruct (IH w1) as (w' & Hrun & Hbeat & Hothers & Hlists & Hj').
    + congruence.
    + intros j Hj. rewrite Hredis, Hid1, hget_hset_ne by done.
      apply Hlock. congruence.
    + done.
    + exists w'. rewrite Hrun, Hlists, Hj', Hj1, Hredis.
      repeat split; try done.
      intros name k Hne. rewrite Hothers by done.
      rewrite Hredis. by apply hget_hset_ne.
Qed.

(** ** The further properties on the scenarios *)

Lemma dispatch_moves_job_witness :
  let w := Scenario.worker "concept-map" Scenario.returns_y2 in
  Store.hget "locks" "j1" (redis (Scenario.at_try w)) = Some "7"
  ∧ job_id (Scenario.at_try w) = Some "j1".
Proof.
  intros w.
  destruct (@dispatch_moves_job Scenario.lib (pending_queues w) w (Scenario.at_try w)
              "concept-map" "j1" Scenario.job_x1)
    as (from_queue & store & _ & _ & _ & _ & _ & _ & Hlock & _ & Hj).
  - apply dispatch_at_try. vm_compute; reflexivity.
  - split; [exact Hlock | exact Hj].
Defined.

Lemma missing_arguments_leave_start_witness :
  let w := add_pipeline "concept-map" Scenario.returns_y2
             (init (Store.lpush "queue:concept-map:pending" "j1" Store.empty) "7") in
  ∃ w', @loop_body Scenario.lib (pending_queues w) w = Leaves AssertionError w'
        ∧ job_id w' = Some "j1".
Proof.
  intros w.
  destruct (@missing_arguments_leave_start Scenario.lib (pending_queues w) w
              "queue:concept-map:pending" "j1" "concept-map"
              (Store.set_list "queue:concept-map:pending" [] (redis w)))
    as (w' & Hleaves & _ & Hj & _).
  - vm_compute; reflexivity.
  - vm_compute; reflexivity.
  - vm_compute; reflexivity.
  - exists w'. split; [exact Hleaves | exact Hj].
Defined.

Lemma unparsable_arguments_leave_start_witness :
  let w := add_pipeline "concept-map" Scenario.returns_y2
             (init (Store.hset "jobs" "j1" "oops"
                      (Store.lpush "queue:concept-map:pending" "j1" Store.empty)) "7") in
  ∃ w', @loop_body Scenario.lib (pending_queues w) w
        = Leaves (Exception_ "Expecting value: line 1 column 1 (char 0)") w'
        ∧ job_id w' = Some "j1".
Proof.
  intros w.
  destruct (@unparsable_arguments_leave_start Scenario.lib (pending_queues w) w
              "queue:concept-map:pending" "j1" "concept-map" "oops"
              (Store.set_list "queue:concept-map:pending" [] (redis w))
              (Exception_ "Expecting value: line 1 column 1 (char 0)"))
    as (w' & Hleaves & _ & Hj & _).
  - vm_compute; reflexivity.
  - vm_compute; reflexivity.
  - vm_compute; reflexivity.
  - vm_compute; reflexivity.
  - exists w'. split; [exact Hleaves | exact Hj].
Defined.

Lemma interrupted_turn_witness :
  let w := Scenario.worker "concept-map" (Scenario.raises KeyboardInterrupt) in
  ∃ w', @loop_body Scenario.lib (pending_queues w) w = Leaves SystemExit w'
        ∧ job_id w' = Some "j1".
Proof.
  intros w.
  destruct (@interrupted_turn Scenario.lib (pending_queues w) w (Scenario.at_try w)
              "concept-map" "j1" Scenario.job_x1
              (Scenario.raises KeyboardInterrupt) (redis (Scenario.at_try w)))
    as (w' & Hleaves & _ & _ & _ & Hj).
  - apply dispatch_at_try. vm_compute; reflexivity.
  - reflexivity.
  - reflexivity.
  - exists w'. split; [exact Hleaves | exact Hj].
Defined.

Lemma uncaught_turn_witness :
  let w := Scenario.worker "concept-map" (Scenario.raises SystemExit) in
  ∃ w', @loop_body Scenario.lib (pending_queues w) w = Leaves SystemExit w'
        ∧ job_id w' = Some "j1".
Proof.
  intros w.
  destruct (@uncaught_turn Scenario.lib (pending_queues w) w (Scenario.at_try w)
              "concept-map" "j1" Scenario.job_x1
              (Scenario.raises SystemExit) SystemExit (redis (Scenario.at_try w)))
    as (w' & Hleaves & _ & _ & _ & Hj).
  - apply dispatch_at_try. vm_compute; reflexivity.
  - reflexivity.
  - reflexivity.
  - reflexivity.
  - discriminate.
  - exists w'. split; [exact Hleaves | exact Hj].
Defined.

Lemma handler_lock_error_turn_witness :
  let w := Scenario.worker "concept-map" (Scenario.raises LockError) in
  ∃ w', @loop_body Scenario.lib (pending_queues w) w = Next w'
        ∧ job_id w' = Some "j1".
Proof.
  intros w.
  destruct (@handler_lock_error_turn Scenario.lib (pending_queues w) w
              (Scenario.at_try w) "concept-map" "j1" Scenario.job_x1
              (Scenario.raises LockError) (redis (Scenario.at_try w)))
    as (w' & Hnext & _ & _ & _ & Hj).
  - apply dispatch_at_try. vm_compute; reflexivity.
  - reflexivity.
  - reflexivity.
  - exists w'. split; [exact Hnext | exact Hj].
Defined.

Lemma unknown_pipeline_turn_witness :
  let w := Scenario.worker "a:b" Scenario.returns_y2 in
  ∃ w', @loop_body Scenario.lib (pending_queues w) w = Next w'
        ∧ Store.lrange "queue:done" (redis w')
          = [Scenario.dumps (JObject [("job_id", JString "j1");
                                      ("error", JString "'a'")])]
        ∧ job_id w' = None.
Proof.
  intros w.
  destruct (@unknown_pipeline_turn Scenario.lib (pending_queues w) w
              (Scenario.at_try w) "a" "j1" Scenario.job_x1)
    as (w' & Hnext & _ & Hdone & Hj).
  - apply dispatch_at_try. vm_compute; reflexivity.
  - reflexivity.
  - exists w'. split; [exact Hnext|]. split; [|exact Hj].
    rewrite Hdone. vm_compute. reflexivity.
Defined.

Lemma lock_deleted_turn_witness :
  let w := Scenario.worker "concept-map" (Scenario.deletes_lock "j1") in
  ∃ w', @loop_body Scenario.lib (pending_queues w) w = Next w'
        ∧ Store.lrange "queue:done" (redis w')
          = [Scenario.text "{'job_id': 'j1', 'error': ''}"]
        ∧ job_id w' = None.
Proof.
  intros w.
  destruct (@lock_deleted_turn Scenario.lib (pending_queues w) w
              (Scenario.at_try w) "concept-map" "j1" Scenario.job_x1
              (Dumpable (JObject [("y", JInt 2)])) (Scenario.deletes_lock "j1")
              (Store.hdel "locks" "j1" (redis (Scenario.at_try w))))
    as (w' & Hnext & _ & Hdone & Hj).
  - apply dispatch_at_try. vm_compute; reflexivity.
  - reflexivity.
  - reflexivity.
  - vm_compute; reflexivity.
  - exists w'. split; [exact Hnext|]. split; [|exact Hj].
    rewrite Hdone. vm_compute. reflexivity.
Defined.

Lemma undisturbed_turn_reports_witness :
  let w := Scenario.worker "concept-map" Scenario.returns_y2 in
  ∃ w', @loop_body Scenario.lib (pending_queues w) w = Next w' ∧ job_id w' = None.
Proof.
  intros w.
  destruct (@undisturbed_turn_reports Scenario.lib (pending_queues w) w
              (Scenario.at_try w) "concept-map" "j1" Scenario.job_x1
              (JObject [("y", JInt 2)]) Scenario.returns_y2
              (redis (Scenario.at_try w)))
    as (w' & Hnext & _ & Hj).
  - apply dispatch_at_try. vm_compute; reflexivity.
  - reflexivity.
  - reflexivity.
  - reflexivity.
  - exists w'. split; [exact Hnext | exact Hj].
Defined.

Lemma concept_map_turn_cleans_witness :
  let w := Scenario.worker "concept-map" Scenario.returns_y2 in
  ∃ w', @loop_body Scenario.lib (pending_queues w) w = Next w'
        ∧ ("j1" ∉ Store.lrange "queue:concept-map:processing" (redis w'))
        ∧ Store.hget "jobs" "j1" (redis w') = None.
Proof.
  intros w.
  destruct (@concept_map_turn_cleans Scenario.lib (pending_queues w) w
              (Scenario.at_try w) "j1" Scenario.job_x1
              (JObject [("y", JInt 2)]) Scenario.returns_y2
              (redis (Scenario.at_try w)))
    as (w' & Hnext & Hqueue & _ & _ & Hjobs & _).
  - apply dispatch_at_try. vm_compute; reflexivity.
  - reflexivity.
  - reflexivity.
  - vm_compute; reflexivity.
  - exists w'. split; [exact Hnext|]. split; [exact Hqueue | exact Hjobs].
Defined.

Lemma clean_up_touches_one_job_witness :
  let w := with_job_id (Some "j1")
             (init (Store.hset "jobs" "j2" Scenario.text_x1
                      (Scenario.pending_store "concept-map" "j1")) "7") in
  Store.hget "jobs" "j2" (redis (clean_up w).2) = Some Scenario.text_x1.
Proof.
  intros w.
  destruct (clean_up_touches_one_job w "j1" eq_refl) as (Hothers & _).
  rewrite (Hothers "jobs" "j2") by discriminate.
  vm_compute. reflexivity.
Defined.

Lemma get_file_after_clean_up_witness :
  let w := with_job_id (Some "j1")
             (init (Store.hset "files" "j1" "%PDF" Store.empty) "7") in
  (get_file "j1" w).1 = Ok "%PDF"
  ∧ (get_file "j1" (clean_up w).2).1 = Raise AssertionError.
Proof.
  intros w. split; [vm_compute; reflexivity|].
  by rewrite (get_file_after_clean_up w "j1" eq_refl).
Defined.

Lemma status_updater_beats_witness :
  ∃ w', status_updater (Some "j1") [1; 2; 3]%Z (init Store.empty "7") = (Ok tt, w')
        ∧ Store.hget "last_updates" "j1" (redis w') = Some "3".
Proof.
  destruct (status_updater_beats "j1" [1; 2; 3]%Z 3%Z (init Store.empty "7"))
    as (w' & Hrun & Hbeat & _).
  - reflexivity.
  - intros j Hj. discriminate Hj.
  - reflexivity.
  - exists w'. split; [exact Hrun | exact Hbeat].
Defined.

Lemma status_updater_lock_lost_witness :
  status_updater (Some "j1") [1; 2; 3]%Z
    (with_redis (Store.hset "locks" "j1" "8")
       (with_job_id (Some "j1") (init Store.empty "7")))
  = (Raise LockError,
     traced (Hget "locks" "j1")
       (with_redis (Store.hset "locks" "j1" "8")
          (with_job_id (Some "j1") (init Store.empty "7")))).
Proof.
  apply (status_updater_lock_lost (Some "j1") 1%Z [2; 3]%Z _ "j1" "8").
  - reflexivity.
  - reflexivity.
  - vm_compute; reflexivity.
  - discriminate.
Defined.

(** ** One report a turn at most *)

Section Reports.

Context `{PyLib}.

Local Arguments check_lock : simpl never.
Local Arguments clean_up : simpl never.

Local Ltac few_reports :=
  split;
  [first [reflexivity | by rewrite <- !app_assoc | by rewrite app_nil_r] | cbn; lia].

Lemma except_clauses_reports (w w' : Worker) (pipeline j : string) (e : exn)
    (r : res unit) :
  job_id w = Some j →
  except_clauses pipeline e w = (r, w') →
  ∃ evs, trace w' = trace w ++ evs ∧ (reports evs ≤ 1)%nat.
Proof.
  intros Hj. destruct e.
  1: { unfold except_clauses. run. rewrite Hj. intros [= _ <-]. cbn.
       eexists. few_reports. }
  all: match goal with
       | |- except_clauses _ ?e _ = _ → _ => destruct (is_Exception e) eqn:Hclass
       end.
  all: try (rewrite (except_clauses_error _ _ j) by done; intros [= _ <-]; cbn;
            eexists; few_reports).
  all: try discriminate Hclass.
  all: unfold except_clauses; intros [= _ <-]; exists []; few_reports.
Qed.

Lemma run_job_reports (w w' : Worker) (pipeline j : string) (job : Json)
    (r : res unit) :
  job_id w = Some j →
  run_job pipeline job w = (r, w') →
  ∃ evs, trace w' = trace w ++ evs ∧ (reports evs ≤ 1)%nat.
Proof.
  intros Hj.
  assert (Hafter : ∀ e evs0 w0,
            job_id w0 = Some j → trace w0 = trace w ++ evs0 → reports evs0 = 0%nat →
            except_clauses pipeline e w0 = (r, w') →
            ∃ evs, trace w' = trace w ++ evs ∧ (reports evs ≤ 1)%nat).
  { intros e evs0 w0 Hj0 Htrace Hnone Hrun.
    destruct (except_clauses_reports _ _ _ _ _ _ Hj0 Hrun) as (evs & Hevs & Hle).
    exists (evs0 ++ evs). rewrite Hevs, Htrace, <- app_assoc. split; [done|].
    clear -Hnone Hle. induction evs0 as [|ev evs0 IH]; [done|].
    destruct ev; cbn in *; try by apply IH.
    destruct (String.eqb key "queue:done"); [done | by apply IH]. }
  destruct (dict_get pipeline (pipelines w)) as [function|] eqn:Hfunction; cycle 1.
  { unfold run_job, try_except, try_block, call_pipeline.
    unfold bind at 1. rewrite Hfunction.
    apply (Hafter _ []); [done | by rewrite app_nil_r | done]. }
  destruct (function job (redis w)) as [[result|e] store] eqn:Hcall; cycle 1.
  { rewrite (run_job_raised _ _ _ _ _ _ Hfunction Hcall).
    by apply (Hafter _ [Call pipeline job]). }
  destruct (Store.hget "locks" j store) as [owner|] eqn:Hlock; cycle 1.
  { unfold run_job, try_except, try_block, call_pipeline.
    unfold bind at 1. rewrite Hfunction, Hcall.
    unfold bind at 1. rewrite (check_lock_held _ j) by done.
    cbn. rewrite Hlock.
    apply (Hafter _ [Call pipeline job; Hget "locks" j]); try done.
    cbn. by rewrite <- app_assoc. }
  destruct (decide (owner = worker_id w)) as [->|Hother].
  - destruct result as [result|msg].
    + rewrite (run_job_reported _ _ _ _ _ _ _ Hj Hfunction Hcall Hlock).
      intros [= _ <-]. cbn. eexists. few_reports.
    + rewrite (run_job_refused _ _ _ _ _ _ _ Hj Hfunction Hcall Hlock).
      intros [= _ <-]. cbn. eexists. few_reports.
  - rewrite (run_job_lost_lock _ _ _ _ _ _ _ _ Hj Hfunction Hcall Hlock Hother).
    intros [= _ <-]. cbn. eexists. few_reports.
Qed.

(** X22.  Whatever way a turn ends, it has only added events to the trace,
    and among them there is at most one push on the done stream: no job is
    ever reported twice in a turn. *)
Theorem turn_reports_at_most_once (queues : list string) (w : Worker) :
  match loop_body queues w with
  | Waiting => True
  | Next w' | Leaves _ w' =>
      ∃ evs, trace w' = trace w ++ evs ∧ (reports evs ≤ 1)%nat
  end.
Proof.
  destruct queues as [|queue queues].
  { exists []. few_reports. }
  destruct (Store.brpop (queue :: queues) (redis w))
    as [[[from_queue j] store]|] eqn:Hpop; cycle 1.
  { unfold loop_body. by rewrite Hpop. }
  destruct (split ":" from_queue !! 1%nat) as [pipeline|] eqn:Hpipeline; cycle 1.
  { unfold loop_body, iteration, receive. rewrite Hpop. run. rewrite Hpipeline. cbn.
    exists [Brpop (queue :: queues) 0 from_queue j]. few_reports. }
  rewrite (loop_body_popped _ _ _ _ _ _ Hpop Hpipeline).
  unfold bind at 1.
  destruct (fetch_and_lock j _) as [[job|e] w1] eqn:Hfetch.
  - destruct (fetch_and_lock_inv _ _ _ _ Hfetch) as (text & Htext & Hparse).
    rewrite (fetch_and_lock_ok _ _ _ _ Htext Hparse) in Hfetch.
    injection Hfetch as Hw1.
    destruct (run_job pipeline job w1) as [r w'] eqn:Hrun.
    destruct (run_job_reports w1 w' pipeline j job r) as (evs & Hevs & Hle);
      [by subst w1 | done |].
    assert (Hprefix : ∃ evs0, trace w1 = trace w ++ evs0 ∧ reports evs0 = 0%nat).
    { subst w1. cbn. eexists. split; [by rewrite <- !app_assoc | done]. }
    destruct Hprefix as (evs0 & Hevs0 & Hnone).
    assert (Hsum : (reports (evs0 ++ evs) ≤ 1)%nat).
    { clear -Hnone Hle. induction evs0 as [|ev evs0 IH]; [done|].
      destruct ev; cbn in *; try by apply IH.
      destruct (String.eqb key "queue:done"); [done | by apply IH]. }
    destruct r as [[]|e]; cbn [finish]; exists (evs0 ++ evs).
    all: by rewrite Hevs, Hevs0, <- app_assoc.
  - revert Hfetch. unfold fetch_and_lock. run.
    destruct (Store.hget "jobs" j _) as [text|].
    + destruct (json_loads text) as [job|e']; cbn; [done|].
      intros [= <- <-]. cbn. eexists. few_reports.
    + intros [= <- <-]. cbn. eexists. few_reports.
Qed.

End Reports.
